(** * TurtleCoin Ledger application: APDU replies, the deny path and the
      finalize-prefix handler

    A shallow embedding of [src/utils.c] and [src/apdu_tx_finalize_prefix.c]
    (with [src/apdu_ident.c]), followed by a model of the cryptographic
    interface declared in [src/hw_crypto.h].

    Conventions of the embedding:
    - [unsigned char], [uint16_t], [uint32_t] and [unsigned int] values are
      integers in [Z]; every conversion to a narrower type is written out as
      a [mod];
    - a C array is a [list Z]; an index ([size_t]) is a [nat];
    - the device globals ([G_io_apdu_buffer], [WORKING_SET], the
      transaction) are fields of one [device] record that every function
      threads through; they are distinct objects, none overlapping
      another;
    - a store or copy outside the bounds of an array has no defined meaning
      in C: the model returns [None] there;
    - what the device does towards the outside (transmitting a reply,
      switching the display) is appended to a trace of events. *)

From stdpp Require Import base option list numbers.
From Stdlib Require Import ZArith Lia.

Local Open Scope Z_scope.

(** ** What the translation units take from headers outside the sources *)

(** Modelled from the spec: the states of the transaction session of §3
    ([transaction.h], which declares the [TX_*] constants, is not among the
    sources; [TX_OUTPUTS_RECEIVED] is the one the handler names). *)
Inductive tx_state_t :=
| TX_IDLE
| TX_INPUTS_RECEIVED
| TX_OUTPUTS_RECEIVED
| TX_PREFIX_FINALIZED
| TX_SIGNING
| TX_COMPLETE.

#[global] Instance tx_state_eq_dec : EqDecision tx_state_t.
Proof. solve_decision. Defined.

(** Modelled from the spec: the output descriptor of §3. *)
Record OutputDescriptor := {
  outputIndex : nat;
  outputKey : list Z;
  derivation : list Z
}.

(** Modelled from the spec: the input descriptor of §3. *)
Record InputDescriptor := {
  realOutputIndex : nat;
  candidatePublicKeys : list (list Z);
  keyImage : list Z
}.

(** Modelled from the spec: the transaction session of §3. The working set
    is the separate global [WORKING_SET] of the code and sits next to the
    session in [device]; as in §3, the session state is a field of its own
    and is not stored inside the working set. *)
Record transaction := {
  state : tx_state_t;
  txPublicKey : list Z;
  outputs : list OutputDescriptor;
  inputs : list InputDescriptor;
  prefixHash : list Z
}.

(** The single step of [ux_tx_finalize_prefix_flow] (a splash screen whose
    callback is [do_tx_finalize_prefix]). *)
Inductive ux_step_t := ux_tx_finalize_prefix_1_step.

Definition ux_tx_finalize_prefix_flow : list ux_step_t :=
  [ux_tx_finalize_prefix_1_step].

(** Effects visible outside the device. *)
Inductive event :=
| EvIoExchange (channel : Z) (reply : list Z)
| EvUiIdle
| EvUxFlowInit (flow : list ux_step_t).

Record device := {
  G_io_apdu_buffer : list Z;
  WORKING_SET : list Z;
  session : transaction;
  trace : list event
}.

(** Constants and the one function that the sources use and that are
    defined elsewhere (the SDK, [common.h], [transaction.c]). *)
Class Platform := {
  CHANNEL_APDU : Z;
  IO_RETURN_AFTER_TX : Z;
  IO_ASYNCH_REPLY : Z;
  OP_OK : Z;
  ERR_OP_NOT_PERMITTED : Z;
  ERR_TRANSACTION_STATE : Z;
  ERR_STR : list Z;
  APDU_IDENT_NAME : list Z;
  KEY_SIZE : nat;
  WORKING_SET_SIZE : nat;
  (** [tx_finalize_prefix()]: the status it returns and the session it
      leaves. *)
  tx_finalize_prefix : transaction -> Z * transaction
}.

(** ** [utils.c] *)
Module Utils.

(** [buffer[i]] as an rvalue. *)
Definition load (buffer : list Z) (i : nat) : option Z := buffer !! i.

(** [buffer[i] = v], the value converted to [unsigned char]. *)
Definition store (buffer : list Z) (i : nat) (v : Z) : option (list Z) :=
  if decide (i < length buffer)%nat then Some (<[i := v mod 256]> buffer)
  else None.

(** [(buffer[0] << 24) | (buffer[1] << 16) | (buffer[2] << 8) | buffer[3]],
    converted to [uint32_t] on return. *)
Definition readUint32BE (buffer : list Z) : option Z :=
  b0 ← load buffer 0; b1 ← load buffer 1;
  b2 ← load buffer 2; b3 ← load buffer 3;
  Some (Z.lor (Z.lor (Z.lor (Z.shiftl b0 24) (Z.shiftl b1 16))
                     (Z.shiftl b2 8)) b3 mod 2 ^ 32).

(** The body of the [TRY] block: a read that faults leaves the block with
    an exception ([None]). *)
Definition readUint16BE_try (buffer : list Z) : option Z :=
  b0 ← load buffer 0; b1 ← load buffer 1;
  Some (Z.lor (Z.shiftl b0 8) b1 mod 2 ^ 16).

(** [CATCH_OTHER(e) { return 0; }] *)
Definition readUint16BE (buffer : list Z) : Z :=
  match readUint16BE_try buffer with
  | Some value => value
  | None => 0
  end.

(** [r[0] = hi; r[1] = lo;] with [lo = value & 0xFF] and [hi = value >> 8],
    both converted to [unsigned char]. *)
Definition uint16ToChar (r : list Z) (value : Z) : option (list Z) :=
  let lo := Z.land value 255 in
  let hi := Z.shiftr value 8 in
  r0 ← store r 0 hi;
  store r0 1 lo.

Definition log (e : event) (d : device) : device :=
  {| G_io_apdu_buffer := G_io_apdu_buffer d;
     WORKING_SET := WORKING_SET d;
     session := session d;
     trace := trace d ++ [e] |}.

Definition set_apdu_buffer (b : list Z) (d : device) : device :=
  {| G_io_apdu_buffer := b;
     WORKING_SET := WORKING_SET d;
     session := session d;
     trace := trace d |}.

Definition set_working_set (w : list Z) (d : device) : device :=
  {| G_io_apdu_buffer := G_io_apdu_buffer d;
     WORKING_SET := w;
     session := session d;
     trace := trace d |}.

Definition set_session (t : transaction) (d : device) : device :=
  {| G_io_apdu_buffer := G_io_apdu_buffer d;
     WORKING_SET := WORKING_SET d;
     session := t;
     trace := trace d |}.

(** [io_exchange(channel, tx)] with [IO_RETURN_AFTER_TX]: the first [tx]
    bytes of the APDU buffer go to the host and the call returns. *)
Definition io_exchange (channel : Z) (tx : nat) (d : device) : device :=
  log (EvIoExchange channel (take tx (G_io_apdu_buffer d))) d.

Definition ui_idle (d : device) : device := log EvUiIdle d.

Definition ux_flow_init (flow : list ux_step_t) (d : device) : device :=
  log (EvUxFlowInit flow) d.

(** [G_io_apdu_buffer[tx] = v] *)
Definition apdu_store (tx : nat) (v : Z) (d : device) : option device :=
  b ← store (G_io_apdu_buffer d) tx v;
  Some (set_apdu_buffer b d).

Section WithPlatform.
Context `{Platform}.

Definition sendResponse (tx : nat) (approve : bool) (d : device)
  : option device :=
  d1 ← apdu_store tx (if approve then 0x90 else 0x69) d;
  d2 ← apdu_store (S tx) (if approve then 0x00 else 0x85) d1;
  let d3 := io_exchange (Z.lor CHANNEL_APDU IO_RETURN_AFTER_TX) (S (S tx)) d2 in
  Some (ui_idle d3).

(** [os_memmove(dst, src, n)] with [dst] the start of an array. *)
Definition os_memmove (dst src : list Z) (n : nat) : option (list Z) :=
  if decide (n ≤ length dst ∧ n ≤ length src)%nat
  then Some (take n src ++ drop n dst)
  else None.

(** The [PRINTF]s only feed the debug console; [name], [name_size] and
    [hexData] are used by nothing else. *)
Definition write_io_fixed (output : list Z) (output_size : nat)
    (name : list Z) (name_size : nat) (hexData : bool) (d : device)
  : option (nat * device) :=
  let tx := 0%nat in
  b ← os_memmove (G_io_apdu_buffer d) output output_size;
  let tx := (tx + output_size)%nat in
  Some (tx, set_apdu_buffer b d).

(** [ptrLength]: the length of a C string, here a list without its
    terminator. *)
Definition ptrLength (p : list Z) : nat := length p.

Definition write_io_hybrid (output : list Z) (output_size : nat)
    (name : list Z) (hexData : bool) (d : device) : option (nat * device) :=
  let name_size := ptrLength name in
  write_io_fixed output output_size name name_size hexData d.

Definition write_io (output name : list Z) (hexData : bool) (d : device)
  : option (nat * device) :=
  let output_size := ptrLength output in
  let name_size := ptrLength name in
  write_io_fixed output output_size name name_size hexData d.

(** [_errCode] is an uninitialised local array of two bytes; both are
    written before they are read. *)
Definition sendError (errCode : Z) (d : device) : option device :=
  _errCode ← uint16ToChar [0; 0] errCode;
  '(tx, d1) ← write_io_hybrid _errCode 2 ERR_STR true d;
  sendResponse tx false d1.

(** [explicit_bzero(s, n)] with [s] the start of an array. *)
Definition explicit_bzero (s : list Z) (n : nat) : option (list Z) :=
  if decide (n ≤ length s)%nat then Some (replicate n 0 ++ drop n s)
  else None.

Definition do_deny (d : device) : option device :=
  w ← explicit_bzero (WORKING_SET d) WORKING_SET_SIZE;
  sendError ERR_OP_NOT_PERMITTED (set_working_set w d).

End WithPlatform.

(** *** [toHexString] *)

(** The character [%x] prints for a digit below 16: ['0'] to ['9'], then
    ['a'] to ['f']. *)
Definition hex_digit (n : Z) : Z := if n <? 10 then 48 + n else 87 + n.

(** The size of a pointer on the device, a 32-bit ARM core. *)
Definition sizeof_char_ptr : nat := 4.

(** [memset(s + pos, 0, n)] *)
Definition clear_at (s : list Z) (pos n : nat) : option (list Z) :=
  if decide (pos + n <= length s)%nat
  then Some (take pos s ++ replicate n 0 ++ drop (pos + n) s)
  else None.

(** The SDK's [snprintf(out + pos, size, "%02x", b)] for a byte [b]: it
    returns at once when [size] is below 2; otherwise it first clears the
    [size] bytes and then prints the two lowercase hexadecimal digits into
    them, as far as [size - 1] characters go. *)
Definition snprintf_02x (out : list Z) (pos size : nat) (b : Z)
  : option (list Z) :=
  if decide (size < 2)%nat then Some out
  else
    o0 ← clear_at out pos size;
    o1 ← store o0 pos (hex_digit (b / 16));
    if decide (size < 3)%nat then Some o1
    else store o1 (S pos) (hex_digit (b mod 16)).

(** [SPRINTF(out + pos, "%02x", b)]: the SDK's macro expands to
    [snprintf(strbuf, sizeof(strbuf), ...)], and [strbuf] is here a
    pointer, so that each call clears four bytes and leaves two digits
    followed by two zero bytes. *)
Definition sprintf_02x (out : list Z) (pos : nat) (b : Z)
  : option (list Z) :=
  snprintf_02x out pos sizeof_char_ptr b.

(** The [for] loop, with [count = in_len - i] iterations left. *)
Fixpoint toHexString_loop (in_ : list Z) (count i pos : nat) (out : list Z)
  : option (list Z) :=
  match count with
  | O => Some out
  | S count' =>
      b ← load in_ i;
      out1 ← sprintf_02x out pos b;
      toHexString_loop in_ count' (S i) (pos + 2) out1
  end.

(** The loop, then [out[out_len] = 0]. *)
Definition toHexString (in_ : list Z) (in_len : nat) (out : list Z)
    (out_len : nat) : option (list Z) :=
  out1 ← toHexString_loop in_ in_len 0 0 out;
  store out1 out_len 0.

(** The hexadecimal digits of a list of bytes, two per byte. *)
Definition hex_of_bytes (bs : list Z) : list Z :=
  concat (map (fun b => [hex_digit (b / 16); hex_digit (b mod 16)]) bs).

(** *** [ui_prepro] *)

(** What [ui_prepro] reads of a display element: [component.userid] (an
    [unsigned char]) and the label, which only
    [bagl_label_roundtrip_duration_ms] looks at. *)
Record bagl_element_t := {
  userid : Z;
  text : list Z
}.

(** The globals of the display: [ux_step] and the interval last set with
    [UX_CALLBACK_SET_INTERVAL]. *)
Record ux_t := {
  ux_step : Z;
  ux_callback_interval : Z
}.

Definition UX_CALLBACK_SET_INTERVAL (ms : Z) (u : ux_t) : ux_t :=
  {| ux_step := ux_step u; ux_callback_interval := ms |}.

(** The macro [MAX]. *)
Definition MAX (a b : Z) : Z := if a >? b then a else b.

Section WithBagl.
(** The SDK's [bagl_label_roundtrip_duration_ms(element, width)], an
    [unsigned int]. *)
Variable bagl_label_roundtrip_duration_ms : bagl_element_t -> Z -> Z.

(** The result is [display] and the display globals; the sum with 1000 is
    an [unsigned int] sum. *)
Definition ui_prepro (element : bagl_element_t) (u : ux_t) : Z * ux_t :=
  let display := 1 in
  if userid element >? 0 then
    let display := if ux_step u =? userid element - 1 then 1 else 0 in
    if display =? 0 then (display, u)
    else if userid element =? 1 then
      (display, UX_CALLBACK_SET_INTERVAL 2000 u)
    else
      (display,
       UX_CALLBACK_SET_INTERVAL
         (MAX 3000
            ((1000 + bagl_label_roundtrip_duration_ms element 7) mod 2 ^ 32))
         u)
  else (display, u).

End WithBagl.
End Utils.

(** ** [apdu_ident.c] *)
Module ApduIdent.
Import Utils.

(** [magic] is [N_turtlecoin_wallet->magic]. *)
Definition handle_ident `{Platform} (magic : list Z) (d : device)
  : option device :=
  '(tx, d1) ← write_io_hybrid magic KEY_SIZE APDU_IDENT_NAME false d;
  sendResponse tx true d1.

End ApduIdent.

(** ** [apdu_tx_finalize_prefix.c] *)
Module ApduTxFinalizePrefix.
Import Utils.

Section WithPlatform.
Context `{Platform}.

(** [tx_state()] *)
Definition tx_state (d : device) : tx_state_t := state (session d).

(** [THROW(status)] inside the [TRY] reaches [CATCH_OTHER(e)], which sends
    the status as an error. *)
Definition do_tx_finalize_prefix (d : device) : option device :=
  let '(status, t) := tx_finalize_prefix (session d) in
  let d1 := set_session t d in
  if decide (status ≠ OP_OK) then sendError status d1
  else sendResponse 0 true d1.

(** The result is the value left in [*flags] and the device. *)
Definition handle_tx_finalize_prefix (flags : Z) (d : device)
  : option (Z * device) :=
  if decide (tx_state d ≠ TX_OUTPUTS_RECEIVED) then
    d1 ← sendError ERR_TRANSACTION_STATE d;
    Some (flags, d1)
  else
    let d1 := ux_flow_init ux_tx_finalize_prefix_flow d in
    Some (Z.lor flags IO_ASYNCH_REPLY, d1).

End WithPlatform.
End ApduTxFinalizePrefix.

(** ** [hw_crypto.h]

    The header declares the cryptographic entry points; their bodies
    ([hw_crypto.c]) are not among the sources. Everything in this module is
    therefore written from the specification (§4.1 to §4.4 and §7), over an
    abstract group with the operations the specification names. *)
Module HwCrypto.

(** Modelled from the spec: the error kinds of §7 (the [ERR_*] codes the
    [uint16_t] results carry are declared outside the sources). *)
Inductive error :=
| InvalidEncoding
| InvalidKey
| InvalidRingIndex
| TransactionStateError
| OperationNotPermitted.

(** Modelled from the spec: the scalar and point arithmetic of §4.1, which
    the sources only reach through the SDK. A scalar is an integer, read
    modulo the group order [L]; [decode] is the mandatory point validation;
    [hash_to_scalar] is H_s and H, [hash_to_point] maps an encoded point to
    a point; [rng] is the state of the device's random generator. *)
Class Curve := {
  point : Type;
  padd : point -> point -> point;
  smul : Z -> point -> point;
  G : point;
  L : Z;
  decode : list Z -> option point;
  encode : point -> list Z;
  hash_to_scalar : list Z -> Z;
  hash_to_point : list Z -> point;
  varint : nat -> list Z;
  rng : Type;
  random_scalar : rng -> Z * rng
}.

(** Modelled from the spec: what §4.1 and §4.2 use of the group, namely
    that scalars act modulo [L] and that scalar multiplication distributes. *)
Class CurveLaws (C : Curve) : Prop := {
  L_pos : 0 < L;
  smul_mod : forall a P, smul (a mod L) P = smul a P;
  smul_add : forall a b P, padd (smul a P) (smul b P) = smul (a + b) P;
  smul_smul : forall a b P, smul a (smul b P) = smul (a * b) P
}.

(** Modelled from the spec: the same laws as they hold in a group with a
    cofactor (§4.2 multiplies by 8), where [decode] accepts every point of
    the curve. Scalar multiplication distributes at every point; scalars
    act modulo [L] on the points of order [L], which the base point is and
    which the results of [hash_to_point] have to be for the responses of
    §4.4, scalars modulo [L], to act on them. *)
Class SubgroupLaws (C : Curve) : Prop := {
  order_pos : 0 < L;
  scalar_add : forall a b P, padd (smul a P) (smul b P) = smul (a + b) P;
  scalar_mul : forall a b P, smul a (smul b P) = smul (a * b) P;
  base_order : forall a, smul (a mod L) G = smul a G;
  hash_order : forall a bs,
    smul (a mod L) (hash_to_point bs) = smul a (hash_to_point bs)
}.

Section WithCurve.
Context {C : Curve}.

(** Computations that may fail with an error kind and may draw from the
    random generator. *)
Definition M (A : Type) : Type := rng -> (error + A) * rng.

Definition ret {A} (a : A) : M A := fun s => (inr a, s).

Definition fail {A} (e : error) : M A := fun s => (inl e, s).

Definition bind {A B} (m : M A) (f : A -> M B) : M B :=
  fun s =>
    match m s with
    | (inl e, s') => (inl e, s')
    | (inr a, s') => f a s'
    end.

(** A scalar drawn uniformly, reduced modulo [L]. *)
Definition draw : M Z :=
  fun s => let '(z, s') := random_scalar s in (inr (z mod L), s').

(** Scalar validation ([hw_check_scalar]): canonical means reduced. *)
Definition canonical (s : Z) : bool := (0 <=? s) && (s <? L).

(** Point validation of every member of a ring ([hw_check_key]). *)
Fixpoint decode_ring (ring : list (list Z)) : option (list point) :=
  match ring with
  | [] => Some []
  | pk :: rest =>
      match decode pk, decode_ring rest with
      | Some P, Some Ps => Some (P :: Ps)
      | _, _ => None
      end
  end.

(** *** Key derivation (§4.2) *)

(** Modelled from the spec: [8 · privateKey · txPublicKey], [InvalidKey] if
    either input fails validation. *)
Definition generate_key_derivation (txPublicKey : list Z) (privateKey : Z)
  : error + point :=
  match decode txPublicKey with
  | None => inl InvalidKey
  | Some A =>
      if canonical privateKey then inr (smul 8 (smul privateKey A))
      else inl InvalidKey
  end.

(** Modelled from the spec: H_s(derivation ‖ outputIndex), the index in its
    variable-length encoding. *)
Definition derivation_to_scalar (derivation : point) (output_index : nat)
  : Z :=
  hash_to_scalar (encode derivation ++ varint output_index) mod L.

(** Modelled from the spec:
    [outputKey = publicSpend + H_s(derivation ‖ outputIndex)·G]. *)
Definition derive_public_key (derivation : point) (output_index : nat)
    (publicSpend : point) : point :=
  padd publicSpend (smul (derivation_to_scalar derivation output_index) G).

(** Modelled from the spec:
    [outputPrivateKey = privateSpend + H_s(derivation ‖ outputIndex) mod L]. *)
Definition derive_secret_key (derivation : point) (output_index : nat)
    (privateSpend : Z) : Z :=
  (privateSpend + derivation_to_scalar derivation output_index) mod L.

(** *** Key image (§4.3) *)

(** Modelled from the spec: [hw__generate_key_image(I, P, x)],
    [keyImage = outputPrivateKey · hash_to_point(outputPublicKey)]. *)
Definition generate_key_image_primitive (P : list Z) (x : Z) : point :=
  smul x (hash_to_point P).

(** Modelled from the spec: [hw_generate_key_image], which composes the
    derivation, the one-time private key and the key image. The
    specification gives no use to [publicSpend] in this composition. *)
Definition generate_key_image (tx_public_key : list Z) (output_index : nat)
    (output_key : list Z) (privateView privateSpend : Z)
    (publicSpend : list Z) : M point :=
  match generate_key_derivation tx_public_key privateView with
  | inl e => fail e
  | inr derivation =>
      let x := derive_secret_key derivation output_index privateSpend in
      ret (generate_key_image_primitive output_key x)
  end.

(** *** Ring signatures (§4.4) *)

(** The commitment of a ring member, from its challenge [c] and response
    [r], its encoded key [pk], the point [P] it decodes to, and the key
    image [Im]. *)
Definition commitment (Im : point) (pk : list Z) (P : point) (c r : Z)
  : point * point :=
  (padd (smul r G) (smul c P),
   padd (smul r (hash_to_point pk)) (smul c Im)).

Definition encode_commitment (cm : point * point) : list Z :=
  encode (fst cm) ++ encode (snd cm).

(** H(prefixHash ‖ keyImage ‖ all commitments) mod L. *)
Definition ring_hash (prefixHash keyImage : list Z)
    (commitments : list (point * point)) : Z :=
  hash_to_scalar
    (prefixHash ++ keyImage ++ concat (map encode_commitment commitments))
  mod L.

(** The challenge of a member other than the real one, from the hash of
    (prefixHash, keyImage, partial commitment); the partial commitment is
    the share [r·G] of the member's drawn response. *)
Definition member_challenge (prefixHash keyImage : list Z) (r : Z) : Z :=
  hash_to_scalar (prefixHash ++ keyImage ++ encode (smul r G)) mod L.

(** One pass over the ring, [i] being the position of the head of
    [members]: every member but the real one gets a drawn response and its
    challenge; the real one contributes the commitment of the nonce [k] and
    leaves its pair open ([None]). *)
Fixpoint ring_round (prefixHash keyImage : list Z) (Im : point)
    (real : nat) (k : Z) (i : nat) (members : list (list Z * point))
  : M (list (option (Z * Z)) * list (point * point)) :=
  match members with
  | [] => ret ([], [])
  | (pk, P) :: rest =>
      if decide (i = real) then
        bind (ring_round prefixHash keyImage Im real k (S i) rest)
          (fun '(sigs, cms) =>
             ret (None :: sigs,
                  (smul k G, smul k (hash_to_point pk)) :: cms))
      else
        bind draw (fun r =>
        let c := member_challenge prefixHash keyImage r in
        bind (ring_round prefixHash keyImage Im real k (S i) rest)
          (fun '(sigs, cms) =>
             ret (Some (c, r) :: sigs, commitment Im pk P c r :: cms)))
  end.

(** The sum of the challenges fixed so far. *)
Definition challenge_sum (sigs : list (option (Z * Z))) : Z :=
  foldr (fun o acc => match o with Some (c, _) => c + acc | None => acc end)
        0 sigs.

(** The number of pairs still open, as an integer. *)
Definition opens (sigs : list (option (Z * Z))) : Z :=
  foldr (fun o acc => match o with Some _ => acc | None => 1 + acc end)
        0 sigs.

(** A pair fixed during the round holds canonical scalars. *)
Definition reduced (o : option (Z * Z)) : Prop :=
  match o with
  | Some (c, r) => canonical c && canonical r = true
  | None => True
  end.

(** Modelled from the spec: [generate] of §4.4
    ([hw__generate_ring_signatures]). The real member's challenge closes
    the ring, [sum of all challenges ≡ H(...) mod L], and its response is
    solved from the nonce and the one-time private key. *)
Definition generate (prefixHash keyImage : list Z) (ring : list (list Z))
    (realIndex : nat) (onetimePrivateKey : Z) : M (list (Z * Z)) :=
  if decide (length ring ≤ realIndex)%nat then fail InvalidRingIndex
  else
    match decode_ring ring with
    | None => fail InvalidKey
    | Some points =>
        match decode keyImage with
        | None => fail InvalidEncoding
        | Some Im =>
            bind draw (fun k =>
            bind (ring_round prefixHash keyImage Im realIndex k 0
                    (zip ring points))
              (fun '(sigs, cms) =>
                 let h := ring_hash prefixHash keyImage cms in
                 let c_real := (h - challenge_sum sigs) mod L in
                 let r_real := (k - c_real * onetimePrivateKey) mod L in
                 ret (map (fun o => default (c_real, r_real) o) sigs)))
        end
    end.

(** The commitments a verifier recomputes. *)
Definition recompute (Im : point) (members : list (list Z * point))
    (signature : list (Z * Z)) : list (point * point) :=
  zip_with (fun '(pk, P) '(c, r) => commitment Im pk P c r) members signature.

Definition total_challenge (signature : list (Z * Z)) : Z :=
  foldr (fun '(c, _) acc => c + acc) 0 signature.

(** Modelled from the spec: [verify] of §4.4 ([hw_check_ring_signatures],
    whose declared result is a [uint16_t]; the specification gives the
    answer as a boolean). Whatever fails to decode, an empty ring, a
    signature of the wrong length or a scalar that is not canonical gives
    [false]. *)
Definition verify (prefixHash keyImage : list Z) (ring : list (list Z))
    (signature : list (Z * Z)) : bool :=
  match decode keyImage, decode_ring ring with
  | Some Im, Some points =>
      if decide (ring = []) then false
      else if decide (length signature ≠ length ring) then false
      else if forallb (fun '(c, r) => canonical c && canonical r) signature
      then
        total_challenge signature mod L
        =? ring_hash prefixHash keyImage
             (recompute Im (zip ring points) signature)
      else false
  | _, _ => false
  end.

(** Modelled from the spec: the inputs [verify] has to answer [false] on
    because some part is malformed: a key image or a ring member that fails
    point validation, an empty ring (the ring length must be at least 1), a
    signature that has not one pair per ring member, or a challenge or
    response that is not a canonical scalar. *)
Definition malformed (keyImage : list Z) (ring : list (list Z))
    (signature : list (Z * Z)) : Prop :=
  decode keyImage = None
  \/ (exists pk, pk ∈ ring /\ decode pk = None)
  \/ ring = []
  \/ length signature <> length ring
  \/ (exists c r, (c, r) ∈ signature /\ canonical c && canonical r = false).

End WithCurve.

(** The integers modulo 11 under addition, generated by 1: a group small
    enough to run the definitions on. *)
Definition toy_hash (bs : list Z) : Z :=
  foldr (fun b acc => (b + 31 * acc + 7) mod 1009) 5 bs.

Definition toy_curve : Curve := {|
  point := Z;
  padd := fun P Q => (P + Q) mod 11;
  smul := fun a P => (a * P) mod 11;
  G := 1;
  L := 11;
  decode := fun bs =>
    match bs with
    | [b] => if (0 <=? b) && (b <? 11) then Some b else None
    | _ => None
    end;
  encode := fun P => [P mod 11];
  hash_to_scalar := toy_hash;
  hash_to_point := fun bs => (toy_hash bs * 3 + 1) mod 11;
  varint := fun n => [Z.of_nat n];
  rng := Z;
  random_scalar := fun s => (s, (s * 75 + 74) mod 65537)
|}.

(** The integers modulo 22 under addition: a group with cofactor 2, whose
    subgroup of order 11 is generated by 2. Every residue decodes to a
    point, the odd ones to points outside that subgroup; [hash_to_point]
    lands in it. *)
Definition toy_cofactor_curve : Curve := {|
  point := Z;
  padd := fun P Q => (P + Q) mod 22;
  smul := fun a P => (a * P) mod 22;
  G := 2;
  L := 11;
  decode := fun bs =>
    match bs with
    | [b] => if (0 <=? b) && (b <? 22) then Some b else None
    | _ => None
    end;
  encode := fun P => [P mod 22];
  hash_to_scalar := toy_hash;
  hash_to_point := fun bs => (2 * toy_hash bs) mod 22;
  varint := fun n => [Z.of_nat n];
  rng := Z;
  random_scalar := fun s => (s, (s * 75 + 74) mod 65537)
|}.

End HwCrypto.

(** ** Concrete instances on which the definitions are run *)

(** A platform with the SDK's values for the [io_exchange] flags, sample
    error codes and a working set of six bytes. *)
Definition sample_platform : Platform := {|
  CHANNEL_APDU := 0;
  IO_RETURN_AFTER_TX := 0x20;
  IO_ASYNCH_REPLY := 0x10;
  OP_OK := 0;
  ERR_OP_NOT_PERMITTED := 0x4000;
  ERR_TRANSACTION_STATE := 0x5001;
  ERR_STR := [69; 82; 82; 79; 82];
  APDU_IDENT_NAME := [73; 68; 69; 78; 84];
  KEY_SIZE := 4;
  WORKING_SET_SIZE := 6;
  tx_finalize_prefix := fun t => (0, t)
|}.

Definition sample_session (st : tx_state_t) : transaction := {|
  state := st;
  txPublicKey := [1; 2; 3; 4];
  outputs := [ {| outputIndex := 0; outputKey := [5; 6]; derivation := [7] |} ];
  inputs := [];
  prefixHash := [9; 9]
|}.

Definition sample_device (st : tx_state_t) : device := {|
  G_io_apdu_buffer := [1; 2; 3; 4; 5; 6; 7; 8];
  WORKING_SET := [0xde; 0xad; 0xbe; 0xef; 0x12; 0x34];
  session := sample_session st;
  trace := []
|}.

(** The sample device with another content of the working set. *)
Definition sample_device_holding (secret : list Z) (st : tx_state_t)
  : device := {|
  G_io_apdu_buffer := [1; 2; 3; 4; 5; 6; 7; 8];
  WORKING_SET := secret;
  session := sample_session st;
  trace := []
|}.

(** The sample platform with a [tx_finalize_prefix] that succeeds on a
    session with at least one output, which it moves to
    [TX_PREFIX_FINALIZED] with a prefix hash, and fails with the status
    0x5002 otherwise, leaving the session alone. *)
Definition finalizing_platform : Platform := {|
  CHANNEL_APDU := 0;
  IO_RETURN_AFTER_TX := 0x20;
  IO_ASYNCH_REPLY := 0x10;
  OP_OK := 0;
  ERR_OP_NOT_PERMITTED := 0x4000;
  ERR_TRANSACTION_STATE := 0x5001;
  ERR_STR := [69; 82; 82; 79; 82];
  APDU_IDENT_NAME := [73; 68; 69; 78; 84];
  KEY_SIZE := 4;
  WORKING_SET_SIZE := 6;
  tx_finalize_prefix := fun t =>
    match outputs t with
    | [] => (0x5002, t)
    | _ :: _ =>
        (0, {| state := TX_PREFIX_FINALIZED;
               txPublicKey := txPublicKey t;
               outputs := outputs t;
               inputs := inputs t;
               prefixHash := [0xAA; 0xBB] |})
    end
|}.

(** A ring over the integers modulo 11: the member at position 1 is the
    public key [5·G] of the private key 5, whose key image is
    [5 · hash_to_point [5]], the point 2. *)
Definition toy_prefix_hash : list Z := [1; 2; 3].

Definition toy_ring : list (list Z) := [[3]; [5]; [10]].

Definition toy_private_key : Z := 5.

Definition toy_key_image : list Z := [2].

(** A ring over the integers modulo 22: the member at position 1 is the
    public key [5·G = 10] of the private key 5, whose key image is
    [5 · hash_to_point [10]], the point 4; the two other members, 3 and 7,
    are points outside the subgroup of order 11. *)
Definition cofactor_ring : list (list Z) := [[3]; [10]; [7]].

Definition cofactor_key_image : list Z := [4].

(** A ring whose second member is not the encoding of a point. *)
Definition toy_bad_ring : list (list Z) := [[3]; [11]].

(** The two status bytes [sendResponse] writes. *)
Definition status_word (approve : bool) : list Z :=
  if approve then [0x90; 0x00] else [0x69; 0x85].

(** The reply [sendError] builds: the code, high byte first, then the
    failure status. *)
Definition error_reply (errCode : Z) : list Z :=
  [Z.shiftr errCode 8 mod 256; Z.land errCode 255 mod 256; 0x69; 0x85].

Import Utils ApduIdent ApduTxFinalizePrefix.

(** * Properties of [utils.c] *)

Section UtilsFacts.
Context `{Platform}.

Lemma store_in_bounds (buffer : list Z) (i : nat) (v : Z) :
  (i < length buffer)%nat ->
  store buffer i v = Some (<[i := v mod 256]> buffer).
Proof. intros Hi. unfold store. by rewrite decide_True. Qed.

(** Two consecutive stores rewrite exactly the two cells they name. *)
Lemma insert_two (buffer : list Z) (i : nat) (a b : Z) :
  (i + 2 <= length buffer)%nat ->
  <[S i := b]> (<[i := a]> buffer)
  = take i buffer ++ [a; b] ++ drop (i + 2) buffer.
Proof.
  revert i. induction buffer as [|x buffer IH]; intros i Hi; simpl in Hi.
  - lia.
  - destruct i as [|i]; simpl.
    + destruct buffer as [|y buffer]; simpl in *; [lia|].
      by rewrite drop_0.
    + f_equal. apply IH. lia.
Qed.

Lemma sendResponse_in_bounds (tx : nat) (approve : bool) (d : device) :
  (tx + 2 <= length (G_io_apdu_buffer d))%nat ->
  sendResponse tx approve d
  = Some {| G_io_apdu_buffer :=
              take tx (G_io_apdu_buffer d) ++ status_word approve
              ++ drop (tx + 2) (G_io_apdu_buffer d);
            WORKING_SET := WORKING_SET d;
            session := session d;
            trace := trace d
              ++ [EvIoExchange (Z.lor CHANNEL_APDU IO_RETURN_AFTER_TX)
                    (take tx (G_io_apdu_buffer d) ++ status_word approve);
                  EvUiIdle] |}.
Proof.
  intros Hb. unfold sendResponse, apdu_store.
  rewrite store_in_bounds by lia. simpl.
  rewrite store_in_bounds by (rewrite length_insert; lia). simpl.
  rewrite insert_two by lia.
  unfold ui_idle, io_exchange, log, set_apdu_buffer; simpl.
  assert (Hlen : length (take tx (G_io_apdu_buffer d)) = tx)
    by (rewrite length_take; lia).
  assert (Htake : forall a b rest,
             take (S (S tx)) (take tx (G_io_apdu_buffer d) ++ a :: b :: rest)
             = take tx (G_io_apdu_buffer d) ++ [a; b]).
  { intros a b rest.
    rewrite take_app_ge by lia. rewrite Hlen.
    replace (S (S tx) - tx)%nat with 2%nat by lia.
    reflexivity. }
  rewrite Htake, <- app_assoc.
  by destruct approve.
Qed.

Lemma uint16ToChar_pair (a b value : Z) :
  uint16ToChar [a; b] value
  = Some [Z.shiftr value 8 mod 256; Z.land value 255 mod 256].
Proof. reflexivity. Qed.

Lemma sendError_in_bounds (errCode : Z) (d : device) :
  (4 <= length (G_io_apdu_buffer d))%nat ->
  sendError errCode d
  = Some {| G_io_apdu_buffer :=
              error_reply errCode ++ drop 4 (G_io_apdu_buffer d);
            WORKING_SET := WORKING_SET d;
            session := session d;
            trace := trace d
              ++ [EvIoExchange (Z.lor CHANNEL_APDU IO_RETURN_AFTER_TX)
                    (error_reply errCode);
                  EvUiIdle] |}.
Proof.
  intros Hb. unfold sendError. rewrite uint16ToChar_pair. simpl.
  unfold write_io_hybrid, write_io_fixed, os_memmove.
  rewrite decide_True by (simpl; lia). simpl.
  rewrite sendResponse_in_bounds by (simpl; rewrite length_drop; lia).
  simpl. rewrite drop_drop. reflexivity.
Qed.

End UtilsFacts.

(** The two bytes [uint16ToChar] produces join back into the value. *)
Lemma uint16_bytes_join (v : Z) :
  0 <= v < 65536 ->
  Z.lor (Z.shiftl (Z.shiftr v 8 mod 256) 8) (Z.land v 255 mod 256) mod 2 ^ 16
  = v.
Proof.
  intros Hv.
  change 255 with (Z.ones 8). rewrite Z.land_ones by lia.
  rewrite Z.shiftr_div_pow2 by lia.
  rewrite Z.mod_mod by lia.
  change (2 ^ 8) with 256. change (2 ^ 16) with 65536.
  assert (Ha : 0 <= v / 256 < 256)
    by (split; [apply Z.div_pos; lia | apply Z.div_lt_upper_bound; lia]).
  rewrite (Z.mod_small (v / 256)) by lia.
  assert (Hb : 0 <= v mod 256 < 256) by (apply Z.mod_pos_bound; lia).
  assert (Hdisj : Z.land (Z.shiftl (v / 256) 8) (v mod 256) = 0).
  { apply Z.bits_inj'. intros n Hn.
    rewrite Z.land_spec, Z.bits_0.
    destruct (Z.lt_ge_cases n 8) as [Hlt | Hge].
    - rewrite Z.shiftl_spec_low by lia. reflexivity.
    - change 256 with (2 ^ 8) at 2.
      rewrite Z.mod_pow2_bits_high by lia. apply andb_false_r. }
  rewrite <- Z.lxor_lor by exact Hdisj.
  rewrite <- Z.add_nocarry_lxor by exact Hdisj.
  rewrite Z.shiftl_mul_pow2 by lia. change (2 ^ 8) with 256.
  rewrite Z.mod_small; [| lia].
  pose proof (Z.div_mod v 256). lia.
Qed.

(** C9: [uint16ToChar] followed by [readUint16BE] is the identity on 16-bit
    values. For every value [v] of [uint16_t] and every buffer [r] with room
    for two bytes, [uint16ToChar] writes the high byte and then the low byte
    into [r], and [readUint16BE] on the buffer so written returns [v]. *)
Theorem readUint16BE_uint16ToChar (r : list Z) (v : Z) :
  (2 <= length r)%nat ->
  0 <= v < 65536 ->
  exists r', uint16ToChar r v = Some r' /\ readUint16BE r' = v.
Proof.
  intros Hr Hv.
  destruct r as [|a [|b r]]; simpl in Hr; try lia.
  exists (Z.shiftr v 8 mod 256 :: Z.land v 255 mod 256 :: r).
  split.
  - unfold uint16ToChar. rewrite store_in_bounds by (simpl; lia). simpl.
    rewrite store_in_bounds by (simpl; lia). reflexivity.
  - unfold readUint16BE, readUint16BE_try, load. simpl.
    apply uint16_bytes_join, Hv.
Qed.

Lemma readUint16BE_uint16ToChar_witness :
  (2 <= length [0; 0])%nat /\ 0 <= 0xABCD < 65536 /\
  exists r', uint16ToChar [0; 0] 0xABCD = Some r' /\ readUint16BE r' = 0xABCD.
Proof.
  split; [simpl; lia|]. split; [lia|].
  apply (readUint16BE_uint16ToChar [0; 0] 0xABCD); [simpl; lia | lia].
Defined.

(** C8: every reply goes out through [sendResponse], which appends exactly
    two status bytes after the [tx] payload bytes already in the APDU
    buffer: 0x90 0x00 when [approve] is true and 0x69 0x85 when it is false.
    For every [tx] that leaves room for the two bytes in the buffer, the
    reply transmitted is the first [tx] bytes of the buffer followed by the
    status word, [tx + 2] bytes in all, and the payload is left as it was. *)
Theorem sendResponse_appends_status_word `{Platform}
    (tx : nat) (approve : bool) (d : device) :
  (tx + 2 <= length (G_io_apdu_buffer d))%nat ->
  exists d' reply,
    sendResponse tx approve d = Some d'
    /\ trace d'
       = trace d
         ++ [EvIoExchange (Z.lor CHANNEL_APDU IO_RETURN_AFTER_TX) reply;
             EvUiIdle]
    /\ reply
       = take tx (G_io_apdu_buffer d)
         ++ (if approve then [0x90; 0x00] else [0x69; 0x85])
    /\ length reply = (tx + 2)%nat
    /\ take tx (G_io_apdu_buffer d') = take tx (G_io_apdu_buffer d).
Proof.
  intros Hb.
  eexists. exists (take tx (G_io_apdu_buffer d) ++ status_word approve).
  split; [apply sendResponse_in_bounds, Hb|]. simpl.
  split; [reflexivity|]. split; [by destruct approve|]. split.
  - rewrite length_app, length_take. destruct approve; simpl; lia.
  - rewrite take_app_le by (rewrite length_take; lia).
    rewrite take_take. f_equal. lia.
Qed.

Lemma sendResponse_appends_status_word_witness :
  (3 + 2 <= length (G_io_apdu_buffer (sample_device TX_IDLE)))%nat /\
  exists d' reply,
    @sendResponse sample_platform 3 false (sample_device TX_IDLE) = Some d'
    /\ trace d'
       = trace (sample_device TX_IDLE) ++ [EvIoExchange 0x20 reply; EvUiIdle]
    /\ reply = [1; 2; 3; 0x69; 0x85]
    /\ length reply = 5%nat
    /\ take 3 (G_io_apdu_buffer d') = [1; 2; 3].
Proof.
  split; [simpl; lia|].
  apply (@sendResponse_appends_status_word sample_platform 3 false
           (sample_device TX_IDLE)).
  simpl; lia.
Defined.

(** The other senders of the sources reply through [sendResponse] too:
    [handle_ident] sends the wallet's magic bytes and the success status. *)
Lemma handle_ident_reply `{Platform} (magic : list Z) (d : device) :
  (KEY_SIZE <= length magic)%nat ->
  (KEY_SIZE + 2 <= length (G_io_apdu_buffer d))%nat ->
  exists d',
    handle_ident magic d = Some d'
    /\ trace d'
       = trace d
         ++ [EvIoExchange (Z.lor CHANNEL_APDU IO_RETURN_AFTER_TX)
               (take KEY_SIZE magic ++ [0x90; 0x00]);
             EvUiIdle].
Proof.
  intros Hm Hb. unfold handle_ident, write_io_hybrid, write_io_fixed, os_memmove.
  rewrite decide_True by lia. simpl.
  rewrite sendResponse_in_bounds
    by (simpl; rewrite length_app, length_take, length_drop; lia).
  eexists. split; [reflexivity|]. simpl.
  rewrite take_app_le by (rewrite length_take; lia).
  rewrite take_take. by replace (KEY_SIZE `min` KEY_SIZE)%nat with KEY_SIZE by lia.
Qed.

(** [do_tx_finalize_prefix] replies with the bare success status when
    [tx_finalize_prefix] returns [OP_OK], and with the status as an error
    otherwise. *)
Lemma do_tx_finalize_prefix_reply `{Platform} (d : device) :
  (4 <= length (G_io_apdu_buffer d))%nat ->
  exists d',
    do_tx_finalize_prefix d = Some d'
    /\ session d' = snd (tx_finalize_prefix (session d))
    /\ trace d'
       = trace d
         ++ [EvIoExchange (Z.lor CHANNEL_APDU IO_RETURN_AFTER_TX)
               (if decide (fst (tx_finalize_prefix (session d)) = OP_OK)
                then [0x90; 0x00]
                else error_reply (fst (tx_finalize_prefix (session d))));
             EvUiIdle].
Proof.
  intros Hb. unfold do_tx_finalize_prefix.
  destruct (tx_finalize_prefix (session d)) as [status t]. simpl.
  destruct (decide (status = OP_OK)) as [Heq | Hne].
  - rewrite decide_False by (intros Hn; by apply Hn).
    rewrite sendResponse_in_bounds by (simpl; lia).
    eexists. split; [reflexivity|]. simpl. auto.
  - rewrite decide_True by exact Hne.
    rewrite sendError_in_bounds by (simpl; lia).
    eexists. split; [reflexivity|]. simpl. auto.
Qed.

Example readUint32BE_sample :
  readUint32BE [0xDE; 0xAD; 0xBE; 0xEF] = Some 0xDEADBEEF.
Proof. reflexivity. Qed.

(** * Properties of the deny path *)

Lemma explicit_bzero_whole (s : list Z) :
  explicit_bzero s (length s) = Some (replicate (length s) 0).
Proof.
  unfold explicit_bzero. rewrite decide_True by lia.
  rewrite drop_all, app_nil_r. reflexivity.
Qed.

(** C1, as the code has it: for every session state, [do_deny] overwrites
    the whole working set ([WORKING_SET_SIZE] bytes) with zero bytes and
    reports [ERR_OP_NOT_PERMITTED] to the host, as the two bytes of the code
    followed by the failure status 0x69 0x85; it then brings the display
    back to the idle screen ([ui_idle]). The transaction session, its state
    included, is left as it was. *)
Theorem do_deny_wipes_and_reports `{Platform} (d : device) :
  length (WORKING_SET d) = WORKING_SET_SIZE ->
  (4 <= length (G_io_apdu_buffer d))%nat ->
  exists d',
    do_deny d = Some d'
    /\ WORKING_SET d' = replicate WORKING_SET_SIZE 0
    /\ trace d'
       = trace d
         ++ [EvIoExchange (Z.lor CHANNEL_APDU IO_RETURN_AFTER_TX)
               (error_reply ERR_OP_NOT_PERMITTED);
             EvUiIdle]
    /\ session d' = session d.
Proof.
  intros Hw Hb. unfold do_deny.
  rewrite <- Hw, explicit_bzero_whole. simpl.
  rewrite sendError_in_bounds by exact Hb.
  eexists. split; [reflexivity|]. simpl. auto.
Qed.

Lemma do_deny_wipes_and_reports_witness :
  length (WORKING_SET (sample_device TX_SIGNING)) = 6%nat /\
  (4 <= length (G_io_apdu_buffer (sample_device TX_SIGNING)))%nat /\
  exists d',
    @do_deny sample_platform (sample_device TX_SIGNING) = Some d'
    /\ WORKING_SET d' = [0; 0; 0; 0; 0; 0]
    /\ trace d' = [EvIoExchange 0x20 [0x40; 0x00; 0x69; 0x85]; EvUiIdle]
    /\ session d' = sample_session TX_SIGNING.
Proof.
  split; [reflexivity|]. split; [simpl; lia|].
  apply (@do_deny_wipes_and_reports sample_platform (sample_device TX_SIGNING));
    [reflexivity | simpl; lia].
Defined.

(** C1, as the claim states it, fails: after [do_deny] on a device whose
    session is in [TX_OUTPUTS_RECEIVED] the working set is all zero and the
    error is sent, but the session is still in [TX_OUTPUTS_RECEIVED], not
    in [TX_IDLE]. *)
Lemma do_deny_session_not_idle :
  exists d',
    @do_deny sample_platform (sample_device TX_OUTPUTS_RECEIVED) = Some d'
    /\ WORKING_SET d' = replicate 6 0
    /\ tx_state d' = TX_OUTPUTS_RECEIVED
    /\ tx_state d' <> TX_IDLE.
Proof.
  eexists. split; [reflexivity|]. split; [reflexivity|].
  split; [reflexivity | discriminate].
Qed.

(** * Properties of [handle_tx_finalize_prefix] *)

(** What the handler does in any state but [TX_OUTPUTS_RECEIVED]. *)
Lemma handle_tx_finalize_prefix_rejected `{Platform}
    (flags : Z) (d : device) :
  tx_state d <> TX_OUTPUTS_RECEIVED ->
  (4 <= length (G_io_apdu_buffer d))%nat ->
  handle_tx_finalize_prefix flags d
  = Some (flags,
          {| G_io_apdu_buffer :=
               error_reply ERR_TRANSACTION_STATE
               ++ drop 4 (G_io_apdu_buffer d);
             WORKING_SET := WORKING_SET d;
             session := session d;
             trace := trace d
               ++ [EvIoExchange (Z.lor CHANNEL_APDU IO_RETURN_AFTER_TX)
                     (error_reply ERR_TRANSACTION_STATE);
                   EvUiIdle] |}).
Proof.
  intros Hst Hb. unfold handle_tx_finalize_prefix.
  rewrite decide_True by exact Hst.
  rewrite sendError_in_bounds by exact Hb. reflexivity.
Qed.

(** What the handler does in [TX_OUTPUTS_RECEIVED]: it starts the
    confirmation flow and sets [IO_ASYNCH_REPLY]; nothing is sent yet. *)
Lemma handle_tx_finalize_prefix_accepted `{Platform}
    (flags : Z) (d : device) :
  tx_state d = TX_OUTPUTS_RECEIVED ->
  handle_tx_finalize_prefix flags d
  = Some (Z.lor flags IO_ASYNCH_REPLY,
          ux_flow_init ux_tx_finalize_prefix_flow d).
Proof.
  intros Hst. unfold handle_tx_finalize_prefix.
  rewrite decide_False by (intros Hne; apply Hne, Hst). reflexivity.
Qed.

(** C2: in every session state other than [TX_OUTPUTS_RECEIVED], the
    finalize_prefix command fails with [ERR_TRANSACTION_STATE], sent to the
    host as an error reply, and does not change the session: its state, its
    inputs and outputs and its prefix hash are what they were, and so is
    the working set. *)
Theorem finalize_prefix_wrong_state_no_mutation `{Platform}
    (flags : Z) (d : device) :
  tx_state d <> TX_OUTPUTS_RECEIVED ->
  (4 <= length (G_io_apdu_buffer d))%nat ->
  exists flags' d',
    handle_tx_finalize_prefix flags d = Some (flags', d')
    /\ trace d'
       = trace d
         ++ [EvIoExchange (Z.lor CHANNEL_APDU IO_RETURN_AFTER_TX)
               (error_reply ERR_TRANSACTION_STATE);
             EvUiIdle]
    /\ state (session d') = state (session d)
    /\ inputs (session d') = inputs (session d)
    /\ outputs (session d') = outputs (session d)
    /\ prefixHash (session d') = prefixHash (session d)
    /\ session d' = session d
    /\ WORKING_SET d' = WORKING_SET d.
Proof.
  intros Hst Hb. eexists _, _.
  split; [apply handle_tx_finalize_prefix_rejected; assumption|].
  simpl. repeat split; reflexivity.
Qed.

Lemma finalize_prefix_wrong_state_no_mutation_witness :
  tx_state (sample_device TX_INPUTS_RECEIVED) <> TX_OUTPUTS_RECEIVED /\
  (4 <= length (G_io_apdu_buffer (sample_device TX_INPUTS_RECEIVED)))%nat /\
  exists flags' d',
    @handle_tx_finalize_prefix sample_platform 0
      (sample_device TX_INPUTS_RECEIVED) = Some (flags', d')
    /\ trace d' = [EvIoExchange 0x20 [0x50; 0x01; 0x69; 0x85]; EvUiIdle]
    /\ state (session d') = TX_INPUTS_RECEIVED
    /\ inputs (session d') = []
    /\ outputs (session d')
       = [ {| outputIndex := 0; outputKey := [5; 6]; derivation := [7] |} ]
    /\ prefixHash (session d') = [9; 9]
    /\ session d' = sample_session TX_INPUTS_RECEIVED
    /\ WORKING_SET d' = [0xde; 0xad; 0xbe; 0xef; 0x12; 0x34].
Proof.
  split; [discriminate|]. split; [simpl; lia|].
  apply (@finalize_prefix_wrong_state_no_mutation sample_platform 0
           (sample_device TX_INPUTS_RECEIVED)); [discriminate | simpl; lia].
Defined.

(** C10: when [handle_tx_finalize_prefix] is called with the session state
    not equal to [TX_OUTPUTS_RECEIVED], it sends the [ERR_TRANSACTION_STATE]
    error and returns with [*flags] as it found it (so [IO_ASYNCH_REPLY] is
    not set by the call), and the only effects are the reply and the return
    to the idle screen: no [ux_flow_init] is issued, so the confirmation
    flow is not started. *)
Theorem finalize_prefix_wrong_state_flags_untouched `{Platform}
    (flags : Z) (d : device) :
  tx_state d <> TX_OUTPUTS_RECEIVED ->
  (4 <= length (G_io_apdu_buffer d))%nat ->
  exists flags' d' effects,
    handle_tx_finalize_prefix flags d = Some (flags', d')
    /\ flags' = flags
    /\ trace d' = trace d ++ effects
    /\ effects
       = [EvIoExchange (Z.lor CHANNEL_APDU IO_RETURN_AFTER_TX)
            (error_reply ERR_TRANSACTION_STATE);
          EvUiIdle]
    /\ forall flow, EvUxFlowInit flow ∉ effects.
Proof.
  intros Hst Hb. eexists _, _, _.
  split; [apply handle_tx_finalize_prefix_rejected; assumption|].
  simpl. repeat split.
  intros flow Hin.
  apply elem_of_cons in Hin as [Heq | Hin]; [discriminate|].
  apply elem_of_cons in Hin as [Heq | Hin]; [discriminate|].
  by apply elem_of_nil in Hin.
Qed.

Lemma finalize_prefix_wrong_state_flags_untouched_witness :
  tx_state (sample_device TX_COMPLETE) <> TX_OUTPUTS_RECEIVED /\
  (4 <= length (G_io_apdu_buffer (sample_device TX_COMPLETE)))%nat /\
  exists flags' d' effects,
    @handle_tx_finalize_prefix sample_platform 5 (sample_device TX_COMPLETE)
    = Some (flags', d')
    /\ flags' = 5
    /\ trace d' = trace (sample_device TX_COMPLETE) ++ effects
    /\ effects = [EvIoExchange 0x20 [0x50; 0x01; 0x69; 0x85]; EvUiIdle]
    /\ forall flow, EvUxFlowInit flow ∉ effects.
Proof.
  split; [discriminate|]. split; [simpl; lia|].
  apply (@finalize_prefix_wrong_state_flags_untouched sample_platform 5
           (sample_device TX_COMPLETE)); [discriminate | simpl; lia].
Defined.

(** * Properties of the cryptographic interface, as the specification
      describes it *)

Import HwCrypto.

Section CryptoFacts.
Context {C : Curve}.

Lemma decode_ring_length (ring : list (list Z)) (points : list point) :
  decode_ring ring = Some points -> length points = length ring.
Proof.
  revert points. induction ring as [|pk ring IH]; intros points Hd; simpl in Hd.
  - by inversion Hd.
  - destruct (decode pk) as [P|]; [|discriminate].
    destruct (decode_ring ring) as [Ps|]; [|discriminate].
    inversion Hd; subst. simpl. f_equal. by apply IH.
Qed.

Lemma decode_ring_valid (ring : list (list Z)) :
  Forall (fun pk => is_Some (decode pk)) ring ->
  exists points, decode_ring ring = Some points.
Proof.
  induction 1 as [|pk ring [P HP] _ [Ps HPs]]; simpl.
  - by eexists.
  - rewrite HP, HPs. by eexists.
Qed.

Lemma decode_ring_invalid (ring : list (list Z)) (pk : list Z) :
  pk ∈ ring -> decode pk = None -> decode_ring ring = None.
Proof.
  induction 1 as [pk ring | pk pk' ring _ IH]; intros Hpk; simpl.
  - by rewrite Hpk.
  - rewrite (IH Hpk). by destruct (decode pk').
Qed.

Lemma decode_ring_lookup (ring : list (list Z)) (points : list point)
    (i : nat) (pk : list Z) :
  decode_ring ring = Some points ->
  ring !! i = Some pk ->
  exists P, decode pk = Some P /\ zip ring points !! i = Some (pk, P).
Proof.
  revert points i.
  induction ring as [|pk' ring IH]; intros points i Hd Hi; simpl in Hd.
  - by rewrite lookup_nil in Hi.
  - destruct (decode pk') as [P'|] eqn:HP'; [|discriminate].
    destruct (decode_ring ring) as [Ps|] eqn:HPs; [|discriminate].
    inversion Hd; subst. destruct i as [|i]; simpl in *.
    + inversion Hi; subst. by exists P'.
    + by apply IH.
Qed.

Lemma total_challenge_closed (cs rs : Z) (sigs : list (option (Z * Z))) :
  total_challenge (map (fun o => default (cs, rs) o) sigs)
  = challenge_sum sigs + cs * opens sigs.
Proof.
  induction sigs as [|[[c r]|] sigs IH]; simpl in *; lia.
Qed.

Lemma canonical_mod (z : Z) : 0 < L -> canonical (z mod L) = true.
Proof.
  intros HL. unfold canonical.
  pose proof (Z.mod_pos_bound z L HL).
  apply andb_true_intro. split; [apply Z.leb_le | apply Z.ltb_lt]; lia.
Qed.

Lemma closed_ring_canonical (cs rs : Z) (sigs : list (option (Z * Z))) :
  Forall reduced sigs ->
  canonical cs && canonical rs = true ->
  forallb (fun '(c, r) => canonical c && canonical r)
          (map (fun o => default (cs, rs) o) sigs) = true.
Proof.
  intros Hs Hc. induction Hs as [|[[c r]|] sigs Ho _ IH]; simpl.
  - reflexivity.
  - simpl in Ho. by rewrite Ho, IH.
  - by rewrite Hc, IH.
Qed.

(** [ring_round] never fails, fixes a reduced pair for every member but the
    real one, leaves exactly the real member's pair open, and records for
    every member the commitment a verifier will recompute, provided the
    pair that closes the ring reproduces the nonce's commitment. *)
Lemma ring_round_run (Hpos : 0 < L) (m kI : list Z) (Im : point)
    (real : nat) (k : Z) (members : list (list Z * point)) :
  forall (i : nat) (s : rng),
  exists sigs cms s',
    ring_round m kI Im real k i members s = (inr (sigs, cms), s')
    /\ length sigs = length members
    /\ Forall reduced sigs
    /\ opens sigs
       = (if decide (i <= real < i + length members)%nat then 1 else 0)
    /\ forall cs rs,
         (forall pk P, (i <= real)%nat ->
            members !! (real - i)%nat = Some (pk, P) ->
            commitment Im pk P cs rs
            = (smul k G, smul k (hash_to_point pk))) ->
         recompute Im members (map (fun o => default (cs, rs) o) sigs) = cms.
Proof.
  induction members as [|[pk P] rest IH]; intros i s.
  - exists [], [], s. simpl. repeat split; [constructor|].
    by rewrite decide_False by lia.
  - simpl. destruct (decide (i = real)) as [-> | Hne].
    + destruct (IH (S real) s) as (sigs & cms & s' & Hrun & Hlen & Hred & Hop & Hre).
      exists (None :: sigs), ((smul k G, smul k (hash_to_point pk)) :: cms), s'.
      unfold bind. rewrite Hrun. simpl. repeat split.
      * by rewrite Hlen.
      * by constructor.
      * rewrite Hop, decide_False by lia. rewrite decide_True by lia. lia.
      * intros cs rs Hclose. unfold recompute. simpl. f_equal.
        -- apply Hclose; [lia|]. by rewrite Nat.sub_diag.
        -- apply Hre. intros pk' P' Hle. lia.
    + unfold bind at 1. unfold draw.
      destruct (random_scalar s) as [z s1].
      destruct (IH (S i) s1) as (sigs & cms & s' & Hrun & Hlen & Hred & Hop & Hre).
      set (c := member_challenge m kI (z mod L)).
      exists (Some (c, z mod L) :: sigs),
             (commitment Im pk P c (z mod L) :: cms), s'.
      unfold bind. rewrite Hrun. simpl. repeat split.
      * by rewrite Hlen.
      * constructor; [|done]. simpl. unfold c, member_challenge.
        by rewrite !canonical_mod.
      * rewrite Hop. destruct (decide (S i <= real < S i + length rest)%nat).
        -- by rewrite decide_True by lia.
        -- by rewrite decide_False by lia.
      * intros cs rs Hclose. unfold recompute. simpl. f_equal.
        apply Hre. intros pk' P' Hle Hlk. apply Hclose; [lia|].
        replace (real - i)%nat with (S (real - S i)) by lia. exact Hlk.
Qed.

End CryptoFacts.

(** The integers modulo 11 satisfy the laws. *)
Lemma toy_laws : CurveLaws toy_curve.
Proof.
  split; simpl.
  - lia.
  - intros a P. by rewrite Z.mul_mod_idemp_l by lia.
  - intros a b P. rewrite <- Z.add_mod by lia. f_equal. lia.
  - intros a b P. rewrite Z.mul_mod_idemp_r by lia. f_equal. lia.
Qed.

(** The integers modulo 22 satisfy the laws of a group with a cofactor. *)
Lemma toy_cofactor_laws : SubgroupLaws toy_cofactor_curve.
Proof.
  split; simpl.
  - lia.
  - intros a b P. rewrite <- Z.add_mod by lia. f_equal. lia.
  - intros a b P. rewrite Z.mul_mod_idemp_r by lia. f_equal. lia.
  - intros a. change 22 with (11 * 2).
    rewrite !Z.mul_mod_distr_r by lia. by rewrite Z.mod_mod by lia.
  - intros a bs. change 22 with (2 * 11).
    rewrite (Z.mul_mod_distr_l (toy_hash bs)) by lia.
    replace (a mod 11 * (2 * (toy_hash bs mod 11)))
      with (2 * (a mod 11 * (toy_hash bs mod 11))) by lia.
    replace (a * (2 * (toy_hash bs mod 11)))
      with (2 * (a * (toy_hash bs mod 11))) by lia.
    rewrite !Z.mul_mod_distr_l by lia.
    by rewrite Z.mul_mod_idemp_l by lia.
Qed.

Section CryptoClaims.
Context {C : Curve}.

(** The pair that closes the ring reproduces the nonce's commitment when
    the member is the public key of [x] and the key image is that of [x]. *)
Lemma commitment_closes {HS : SubgroupLaws C} (pk : list Z) (x k cs : Z) :
  commitment (smul x (hash_to_point pk)) pk (smul x G) cs
             ((k - cs * x) mod L)
  = (smul k G, smul k (hash_to_point pk)).
Proof.
  unfold commitment.
  rewrite base_order, hash_order, !scalar_mul, !scalar_add.
  by replace (k - cs * x + cs * x) with k by lia.
Qed.

(** C4: the one-time keys form a keypair. For every derivation, output
    index and private spend key, [derive_secret_key] applied to the private
    spend key, times [G], is [derive_public_key] applied to the matching
    public spend key [privateSpend · G]. *)
Theorem derive_keys_form_keypair {HC : CurveLaws C}
    (derivation : point) (output_index : nat) (privateSpend : Z) :
  smul (derive_secret_key derivation output_index privateSpend) G
  = derive_public_key derivation output_index (smul privateSpend G).
Proof.
  unfold derive_secret_key, derive_public_key.
  by rewrite smul_mod, smul_add.
Qed.

(** The model of [verify] answers [false] on every input that is malformed
    (the key image or a ring member fails point validation, the ring is
    empty, the signature has not one pair per member, or a scalar is not
    canonical). This is a fact about the model of §4.4 only: the header
    declares [hw_check_ring_signatures] with a [uint16_t] result, and what
    that word carries cannot be read from the sources. *)
Lemma verify_false_on_malformed
    (prefixHash keyImage : list Z) (ring : list (list Z))
    (signature : list (Z * Z)) :
  malformed keyImage ring signature ->
  verify prefixHash keyImage ring signature = false.
Proof.
  intros Hbad. unfold verify.
  destruct (decode keyImage) as [Im|] eqn:HI; [|reflexivity].
  destruct (decode_ring ring) as [points|] eqn:HR; [|reflexivity].
  destruct (decide (ring = [])) as [|Hne]; [reflexivity|].
  destruct (decide (length signature ≠ length ring)) as [|Hlen]; [reflexivity|].
  destruct (forallb _ signature) eqn:Hcan; [|reflexivity].
  exfalso.
  destruct Hbad as [Hk | [(pk & Hin & Hpk) | [Hr | [Hl | (c & r & Hin & Hcr)]]]].
  - congruence.
  - rewrite (decode_ring_invalid ring pk Hin Hpk) in HR. discriminate.
  - contradiction.
  - contradiction.
  - rewrite forallb_forall in Hcan.
    apply list_elem_of_In in Hin. specialize (Hcan _ Hin). simpl in Hcan.
    congruence.
Qed.


(** C3: ring-signature round trip. For every ring of valid members (of
    size 1 to 16, and of any larger size too), every real index below the
    ring size and every one-time private key [x] that is valid for the
    call, that is, whose public key [x·G] is the ring member at the real
    index and whose key image is [keyImage], generation succeeds from every
    state of the random generator and the signature it produces verifies
    over the same (prefixHash, keyImage, ring). The group may have a
    cofactor and the other ring members may lie outside the subgroup of
    order [L]. *)
Theorem ring_signature_round_trip {HS : SubgroupLaws C}
    (prefixHash keyImage : list Z) (ring : list (list Z))
    (realIndex : nat) (onetimePrivateKey : Z) (pk : list Z) (s : rng) :
  (realIndex < length ring)%nat ->
  Forall (fun member => is_Some (decode member)) ring ->
  ring !! realIndex = Some pk ->
  decode pk = Some (smul onetimePrivateKey G) ->
  decode keyImage = Some (smul onetimePrivateKey (hash_to_point pk)) ->
  exists signature s',
    generate prefixHash keyImage ring realIndex onetimePrivateKey s
    = (inr signature, s')
    /\ verify prefixHash keyImage ring signature = true.
Proof.
  intros Hidx Hvalid Hpk Hpub Himg.
  pose proof order_pos as HL.
  destruct (decode_ring_valid ring Hvalid) as [points Hpts].
  destruct (decode_ring_lookup ring points realIndex pk Hpts Hpk)
    as (P & HP & Hzip).
  assert (P = smul onetimePrivateKey G) as -> by congruence.
  unfold generate. rewrite decide_False by lia. rewrite Hpts, Himg.
  unfold bind at 1. unfold draw. destruct (random_scalar s) as [z s1].
  set (k := z mod L). set (Im := smul onetimePrivateKey (hash_to_point pk)).
  destruct (ring_round_run HL prefixHash keyImage Im realIndex k
              (zip ring points) 0%nat s1)
    as (sigs & cms & s' & Hrun & Hlen & Hred & Hop & Hre).
  unfold bind. rewrite Hrun. simpl.
  set (h := ring_hash prefixHash keyImage cms).
  set (cs := (h - challenge_sum sigs) mod L).
  set (rs := (k - cs * onetimePrivateKey) mod L).
  eexists _, _. split; [reflexivity|].
  assert (Hzlen : length (zip ring points) = length ring).
  { rewrite length_zip. rewrite (decode_ring_length ring points Hpts). lia. }
  unfold verify. rewrite Himg, Hpts.
  rewrite decide_False by (intros ->; simpl in Hidx; lia).
  rewrite decide_False by (rewrite length_map, Hlen, Hzlen; intros Hn; by apply Hn).
  rewrite closed_ring_canonical;
    [| exact Hred | unfold cs, rs; by rewrite !canonical_mod].
  fold Im. rewrite (Hre cs rs).
  - fold h. rewrite total_challenge_closed, Hop.
    rewrite decide_True by lia. apply Z.eqb_eq.
    unfold cs. rewrite Z.mul_1_r, Z.add_mod_idemp_r by lia.
    replace (challenge_sum sigs + (h - challenge_sum sigs)) with h by lia.
    unfold h, ring_hash. by rewrite Z.mod_mod by lia.
  - intros pk' P' _ Hlk. rewrite Nat.sub_0_r, Hzip in Hlk.
    inversion Hlk; subst pk' P'. apply commitment_closes.
Qed.

End CryptoClaims.

(** ** The claims on the integers modulo 11 *)

Lemma derive_keys_form_keypair_witness :
  CurveLaws toy_curve /\
  @smul toy_curve (@derive_secret_key toy_curve 4 2%nat 7) (@G toy_curve)
  = @derive_public_key toy_curve 4 2%nat (@smul toy_curve 7 (@G toy_curve)).
Proof.
  split; [exact toy_laws|].
  apply (@derive_keys_form_keypair toy_curve toy_laws 4 2%nat 7).
Defined.

Lemma verify_false_on_malformed_witness :
  @malformed toy_curve toy_key_image toy_bad_ring [(1, 2); (3, 4)] /\
  @verify toy_curve toy_prefix_hash toy_key_image toy_bad_ring
    [(1, 2); (3, 4)] = false.
Proof.
  assert (Hbad : @malformed toy_curve toy_key_image toy_bad_ring
                   [(1, 2); (3, 4)]).
  { right; left. exists [11]. split; [|reflexivity].
    unfold toy_bad_ring. apply list_elem_of_further, list_elem_of_here. }
  split; [exact Hbad|].
  apply (@verify_false_on_malformed toy_curve toy_prefix_hash toy_key_image
           toy_bad_ring [(1, 2); (3, 4)] Hbad).
Defined.



(** Whatever the order of the two checks, no result meets both demands of
    the claim at such an input. *)
Lemma no_result_is_both_errors (sig rng_state : Type)
    (r : (HwCrypto.error + sig) * rng_state) (s : rng_state) :
  ~ (r = (inl InvalidRingIndex, s) /\ r = (inl InvalidKey, s)).
Proof. intros [-> Hr]. discriminate. Qed.

Lemma ring_signature_round_trip_witness :
  SubgroupLaws toy_cofactor_curve /\
  (1 < length cofactor_ring)%nat /\
  Forall (fun member => is_Some (@decode toy_cofactor_curve member))
    cofactor_ring /\
  cofactor_ring !! 1%nat = Some [10] /\
  @decode toy_cofactor_curve [10]
  = Some (@smul toy_cofactor_curve toy_private_key G) /\
  @decode toy_cofactor_curve cofactor_key_image
  = Some (@smul toy_cofactor_curve toy_private_key
            (@hash_to_point toy_cofactor_curve [10])) /\
  exists signature s',
    @generate toy_cofactor_curve toy_prefix_hash cofactor_key_image
      cofactor_ring 1 toy_private_key 42 = (inr signature, s')
    /\ @verify toy_cofactor_curve toy_prefix_hash cofactor_key_image
         cofactor_ring signature = true.
Proof.
  assert (Hvalid : Forall (fun member =>
                             is_Some (@decode toy_cofactor_curve member))
                     cofactor_ring).
  { unfold cofactor_ring. repeat constructor; by eexists. }
  split; [exact toy_cofactor_laws|]. split; [simpl; lia|].
  split; [exact Hvalid|].
  split; [reflexivity|]. split; [reflexivity|]. split; [reflexivity|].
  apply (@ring_signature_round_trip toy_cofactor_curve toy_cofactor_laws
           toy_prefix_hash cofactor_key_image cofactor_ring 1
           toy_private_key [10] 42);
    [simpl; lia | exact Hvalid | reflexivity | reflexivity | reflexivity].
Defined.

(** The ring of one member, run: the signature is a single pair and it
    verifies. *)
Example ring_of_one_round_trip :
  @generate toy_curve toy_prefix_hash toy_key_image [[5]] 0
    toy_private_key 42 = (inr [(8, 2)], 3224)
  /\ @verify toy_curve toy_prefix_hash toy_key_image [[5]] [(8, 2)] = true.
Proof. split; vm_compute; reflexivity. Qed.

(** With a key image that is not the private key's, the signature produced
    does not verify: the round trip needs the key image to match. *)
Example ring_wrong_key_image_fails :
  exists signature s',
    @generate toy_curve toy_prefix_hash [3] toy_ring 1 toy_private_key 42
    = (inr signature, s')
    /\ @verify toy_curve toy_prefix_hash [3] toy_ring signature = false.
Proof. eexists _, _. split; vm_compute; reflexivity. Qed.

(** * Further properties of [utils.c] *)

(** ** The big-endian readers *)

(** Joining a value whose low [k] bits are clear with one that fits in [k]
    bits adds them. *)
Lemma lor_disjoint_add (a lo k : Z) :
  0 <= k -> 0 <= lo < 2 ^ k -> a mod 2 ^ k = 0 -> Z.lor a lo = a + lo.
Proof.
  intros Hk Hlo Ha.
  assert (Hdisj : Z.land a lo = 0).
  { apply Z.bits_inj'. intros n Hn. rewrite Z.land_spec, Z.bits_0.
    destruct (Z.lt_ge_cases n k) as [Hlt | Hge].
    - rewrite <- (Z.mod_pow2_bits_low a k n) by lia.
      by rewrite Ha, Z.bits_0.
    - rewrite <- (Z.mod_small lo (2 ^ k)) by lia.
      rewrite Z.mod_pow2_bits_high by lia. apply andb_false_r. }
  rewrite <- Z.lxor_lor by exact Hdisj.
  by rewrite <- Z.add_nocarry_lxor by exact Hdisj.
Qed.

Lemma multiple_mod_0 (q k : Z) : 0 < k -> (q * k) mod k = 0.
Proof. intros Hk. apply Z.mod_mul. lia. Qed.

Lemma readUint16BE_bytes (b0 b1 : Z) (rest : list Z) :
  0 <= b0 < 256 -> 0 <= b1 < 256 ->
  readUint16BE (b0 :: b1 :: rest) = b0 * 256 + b1.
Proof.
  intros H0 H1. unfold readUint16BE, readUint16BE_try, load. simpl.
  rewrite Z.shiftl_mul_pow2 by lia.
  rewrite (lor_disjoint_add _ b1 8) by (try apply multiple_mod_0; lia).
  change (2 ^ 8) with 256. change (2 ^ 16) with 65536.
  apply Z.mod_small. lia.
Qed.

(** [readUint32BE] reads four bytes as a big-endian number: the first byte
    is the most significant, and the result is a [uint32_t]. *)
Theorem readUint32BE_big_endian (b0 b1 b2 b3 : Z) (rest : list Z) :
  0 <= b0 < 256 -> 0 <= b1 < 256 -> 0 <= b2 < 256 -> 0 <= b3 < 256 ->
  exists value,
    readUint32BE (b0 :: b1 :: b2 :: b3 :: rest) = Some value
    /\ value = b0 * 2 ^ 24 + b1 * 2 ^ 16 + b2 * 2 ^ 8 + b3
    /\ 0 <= value < 2 ^ 32.
Proof.
  intros H0 H1 H2 H3. eexists. split; [reflexivity|].
  rewrite !Z.shiftl_mul_pow2 by lia.
  change (2 ^ 24) with (256 * 2 ^ 16). change (2 ^ 16) with (256 * 2 ^ 8).
  change (2 ^ 32) with (256 * (256 * (256 * 2 ^ 8))).
  change (2 ^ 8) with 256.
  rewrite (lor_disjoint_add (b0 * _) (b1 * _) 24);
    [| lia | change (2 ^ 24) with 16777216; lia
     | replace (b0 * (256 * (256 * 256))) with (b0 * 2 ^ 24) by reflexivity;
       apply multiple_mod_0; lia].
  rewrite (lor_disjoint_add _ (b2 * 256) 16);
    [| lia | change (2 ^ 16) with 65536; lia
     | replace (b0 * (256 * (256 * 256)) + b1 * (256 * 256))
         with ((b0 * 256 + b1) * 2 ^ 16) by (change (2 ^ 16) with 65536; lia);
       apply multiple_mod_0; lia].
  rewrite (lor_disjoint_add _ b3 8);
    [| lia | change (2 ^ 8) with 256; lia
     | replace (b0 * (256 * (256 * 256)) + b1 * (256 * 256) + b2 * 256)
         with ((b0 * 65536 + b1 * 256 + b2) * 2 ^ 8)
         by (change (2 ^ 8) with 256; lia);
       apply multiple_mod_0; lia].
  rewrite Z.mod_small by lia. lia.
Qed.

Lemma readUint32BE_big_endian_witness :
  0 <= 0xDE < 256 /\ 0 <= 0xAD < 256 /\ 0 <= 0xBE < 256 /\ 0 <= 0xEF < 256 /\
  exists value,
    readUint32BE [0xDE; 0xAD; 0xBE; 0xEF; 0x01] = Some value
    /\ value = 0xDE * 2 ^ 24 + 0xAD * 2 ^ 16 + 0xBE * 2 ^ 8 + 0xEF
    /\ 0 <= value < 2 ^ 32.
Proof.
  repeat (split; [lia|]).
  apply (readUint32BE_big_endian 0xDE 0xAD 0xBE 0xEF [0x01]); lia.
Defined.

(** The two readers agree: the 32-bit value is the 16-bit value of the
    first two bytes, shifted up by 16 bits, plus the 16-bit value of the
    last two. *)
Theorem readUint32BE_halves (b0 b1 b2 b3 : Z) :
  0 <= b0 < 256 -> 0 <= b1 < 256 -> 0 <= b2 < 256 -> 0 <= b3 < 256 ->
  readUint32BE [b0; b1; b2; b3]
  = Some (readUint16BE [b0; b1] * 65536 + readUint16BE [b2; b3]).
Proof.
  intros H0 H1 H2 H3. rewrite !readUint16BE_bytes by lia.
  unfold readUint32BE, load. simpl. f_equal.
  rewrite !Z.shiftl_mul_pow2 by lia.
  rewrite (lor_disjoint_add _ (b1 * 2 ^ 16) 24);
    [| lia | change (2 ^ 16) with 65536; change (2 ^ 24) with 16777216; lia
     | apply multiple_mod_0; lia].
  rewrite (lor_disjoint_add _ (b2 * 2 ^ 8) 16);
    [| lia | change (2 ^ 8) with 256; change (2 ^ 16) with 65536; lia
     | replace (b0 * 2 ^ 24 + b1 * 2 ^ 16) with ((b0 * 256 + b1) * 2 ^ 16)
         by (change (2 ^ 24) with 16777216; change (2 ^ 16) with 65536; lia);
       apply multiple_mod_0; lia].
  rewrite (lor_disjoint_add _ b3 8);
    [| lia | change (2 ^ 8) with 256; lia
     | replace (b0 * 2 ^ 24 + b1 * 2 ^ 16 + b2 * 2 ^ 8)
         with ((b0 * 65536 + b1 * 256 + b2) * 2 ^ 8)
         by (change (2 ^ 24) with 16777216; change (2 ^ 16) with 65536;
             change (2 ^ 8) with 256; lia);
       apply multiple_mod_0; lia].
  change (2 ^ 24) with 16777216. change (2 ^ 16) with 65536.
  change (2 ^ 8) with 256. change (2 ^ 32) with 4294967296.
  rewrite Z.mod_small by lia. lia.
Qed.

Lemma readUint32BE_halves_witness :
  0 <= 0x12 < 256 /\ 0 <= 0x34 < 256 /\ 0 <= 0x56 < 256 /\ 0 <= 0x78 < 256 /\
  readUint32BE [0x12; 0x34; 0x56; 0x78]
  = Some (readUint16BE [0x12; 0x34] * 65536 + readUint16BE [0x56; 0x78]).
Proof.
  repeat (split; [lia|]).
  apply (readUint32BE_halves 0x12 0x34 0x56 0x78); lia.
Defined.

(** The round trip in the other direction: reading two bytes with
    [readUint16BE] and writing the value back with [uint16ToChar] restores
    the two bytes, in a buffer whose other cells are left alone. *)
Theorem uint16ToChar_readUint16BE (b0 b1 : Z) (rest r : list Z) :
  0 <= b0 < 256 -> 0 <= b1 < 256 -> (2 <= length r)%nat ->
  uint16ToChar r (readUint16BE (b0 :: b1 :: rest))
  = Some (b0 :: b1 :: drop 2 r).
Proof.
  intros H0 H1 Hr. rewrite readUint16BE_bytes by lia.
  destruct r as [|x [|y r]]; simpl in Hr; try lia.
  unfold uint16ToChar. rewrite store_in_bounds by (simpl; lia). simpl.
  rewrite store_in_bounds by (simpl; lia). simpl.
  change 255 with (Z.ones 8). rewrite Z.land_ones by lia.
  rewrite Z.shiftr_div_pow2 by lia. change (2 ^ 8) with 256.
  rewrite Z.mod_mod by lia.
  rewrite Z.div_add_l by lia. rewrite (Z.div_small b1) by lia.
  rewrite Z.add_0_r, (Z.mod_small b0) by lia.
  rewrite Z.add_comm, Z.mod_add by lia.
  by rewrite (Z.mod_small b1) by lia.
Qed.

Lemma uint16ToChar_readUint16BE_witness :
  0 <= 0xAB < 256 /\ 0 <= 0xCD < 256 /\ (2 <= length [7; 7; 7])%nat /\
  uint16ToChar [7; 7; 7] (readUint16BE [0xAB; 0xCD])
  = Some [0xAB; 0xCD; 7].
Proof.
  split; [lia|]. split; [lia|]. split; [simpl; lia|].
  apply (uint16ToChar_readUint16BE 0xAB 0xCD [] [7; 7; 7]);
    [lia | lia | simpl; lia].
Defined.

(** ** Replies *)

(** The first two bytes of an error reply carry the low 16 bits of the
    code, whatever integer the caller passes. *)
Lemma error_reply_decodes (errCode : Z) :
  readUint16BE (error_reply errCode) = errCode mod 65536.
Proof.
  unfold error_reply.
  assert (Hhi : 0 <= Z.shiftr errCode 8 mod 256 < 256)
    by (apply Z.mod_pos_bound; lia).
  assert (Hlo : 0 <= Z.land errCode 255 mod 256 < 256)
    by (apply Z.mod_pos_bound; lia).
  rewrite readUint16BE_bytes by assumption.
  change 255 with (Z.ones 8). rewrite Z.land_ones by lia.
  rewrite Z.shiftr_div_pow2 by lia. change (2 ^ 8) with 256.
  rewrite Z.mod_mod by lia.
  change 65536 with (256 * 256). rewrite Z.rem_mul_r by lia. lia.
Qed.

Section ReplyFacts.
Context `{Platform}.

Lemma write_io_hybrid_in_bounds (output name : list Z) (n : nat)
    (hexData : bool) (d : device) :
  (n <= length output)%nat ->
  (n <= length (G_io_apdu_buffer d))%nat ->
  write_io_hybrid output n name hexData d
  = Some (n, set_apdu_buffer (take n output ++ drop n (G_io_apdu_buffer d)) d).
Proof.
  intros Ho Hb. unfold write_io_hybrid, write_io_fixed, os_memmove.
  by rewrite decide_True by lia.
Qed.

(** A reply built the way every handler of the sources builds it,
    [sendResponse(write_io_hybrid(output, n, name, hexData), approve)], is
    the first [n] bytes of [output] followed by the status word and nothing
    else: [write_io_hybrid] sends nothing by itself and returns [n], the
    bytes the APDU buffer held before are not part of the reply, the cells
    after the reply keep their content, and neither the session nor the
    working set changes. *)
Theorem reply_is_payload_then_status (output name : list Z) (n : nat)
    (hexData approve : bool) (d : device) :
  (n <= length output)%nat ->
  (n + 2 <= length (G_io_apdu_buffer d))%nat ->
  exists d1 d2,
    write_io_hybrid output n name hexData d = Some (n, d1)
    /\ trace d1 = trace d
    /\ sendResponse n approve d1 = Some d2
    /\ trace d2
       = trace d
         ++ [EvIoExchange (Z.lor CHANNEL_APDU IO_RETURN_AFTER_TX)
               (take n output ++ (if approve then [0x90; 0x00]
                                  else [0x69; 0x85]));
             EvUiIdle]
    /\ drop (n + 2) (G_io_apdu_buffer d2) = drop (n + 2) (G_io_apdu_buffer d)
    /\ session d2 = session d
    /\ WORKING_SET d2 = WORKING_SET d.
Proof.
  intros Ho Hb. eexists _, _.
  split; [apply write_io_hybrid_in_bounds; lia|].
  split; [reflexivity|].
  assert (Hlen : length (take n output) = n) by (rewrite length_take; lia).
  split.
  { apply sendResponse_in_bounds. simpl.
    rewrite length_app, Hlen, length_drop. lia. }
  simpl. rewrite take_app_le by lia. rewrite take_take.
  replace (n `min` n)%nat with n by lia.
  split; [by destruct approve|]. split; [|done].
  rewrite app_assoc.
  rewrite drop_app_length'
    by (rewrite length_app, Hlen; by destruct approve).
  rewrite drop_app_ge by lia. rewrite Hlen, drop_drop. f_equal. lia.
Qed.

(** [handle_ident] checks nothing: whatever the session state, it replies
    with the first [KEY_SIZE] bytes of the wallet's magic followed by the
    success status, and changes neither the session nor the working set. *)
Theorem handle_ident_in_any_state (magic : list Z) (d : device) :
  (KEY_SIZE <= length magic)%nat ->
  (KEY_SIZE + 2 <= length (G_io_apdu_buffer d))%nat ->
  exists d',
    handle_ident magic d = Some d'
    /\ trace d'
       = trace d
         ++ [EvIoExchange (Z.lor CHANNEL_APDU IO_RETURN_AFTER_TX)
               (take KEY_SIZE magic ++ [0x90; 0x00]);
             EvUiIdle]
    /\ session d' = session d
    /\ WORKING_SET d' = WORKING_SET d.
Proof.
  intros Hm Hb. unfold handle_ident.
  rewrite write_io_hybrid_in_bounds by lia. simpl.
  assert (Hlen : length (take KEY_SIZE magic) = KEY_SIZE)
    by (rewrite length_take; lia).
  rewrite sendResponse_in_bounds
    by (simpl; rewrite length_app, Hlen, length_drop; lia).
  eexists. split; [reflexivity|]. simpl.
  rewrite take_app_le by lia. rewrite take_take.
  by replace (KEY_SIZE `min` KEY_SIZE)%nat with KEY_SIZE by lia.
Qed.

(** The host can read the error back: the reply of [sendError] is four
    bytes, the first two are the code in big-endian order (so that
    [readUint16BE] returns its low 16 bits, the code itself for a
    [uint16_t]), the last two are 0x69 0x85. Only the first four cells of
    the APDU buffer change; the session and the working set do not. *)
Theorem sendError_reply_decodes (errCode : Z) (d : device) :
  (4 <= length (G_io_apdu_buffer d))%nat ->
  exists d' reply,
    sendError errCode d = Some d'
    /\ trace d'
       = trace d
         ++ [EvIoExchange (Z.lor CHANNEL_APDU IO_RETURN_AFTER_TX) reply;
             EvUiIdle]
    /\ length reply = 4%nat
    /\ readUint16BE reply = errCode mod 65536
    /\ drop 2 reply = [0x69; 0x85]
    /\ drop 4 (G_io_apdu_buffer d') = drop 4 (G_io_apdu_buffer d)
    /\ session d' = session d
    /\ WORKING_SET d' = WORKING_SET d.
Proof.
  intros Hb. eexists _, _.
  split; [apply sendError_in_bounds, Hb|]. simpl.
  split; [reflexivity|]. split; [reflexivity|].
  split; [apply error_reply_decodes|]. split; [reflexivity|].
  split; [reflexivity | done].
Qed.

End ReplyFacts.

Lemma reply_is_payload_then_status_witness :
  (3 <= length [0x11; 0x22; 0x33; 0x44])%nat /\
  (3 + 2 <= length (G_io_apdu_buffer (sample_device TX_IDLE)))%nat /\
  exists d1 d2,
    write_io_hybrid [0x11; 0x22; 0x33; 0x44] 3 [78] true
      (sample_device TX_IDLE) = Some (3%nat, d1)
    /\ trace d1 = []
    /\ @sendResponse sample_platform 3 true d1 = Some d2
    /\ trace d2 = [EvIoExchange 0x20 [0x11; 0x22; 0x33; 0x90; 0x00]; EvUiIdle]
    /\ drop (3 + 2) (G_io_apdu_buffer d2) = [6; 7; 8]
    /\ session d2 = sample_session TX_IDLE
    /\ WORKING_SET d2 = WORKING_SET (sample_device TX_IDLE).
Proof.
  split; [simpl; lia|]. split; [simpl; lia|].
  apply (@reply_is_payload_then_status sample_platform
           [0x11; 0x22; 0x33; 0x44] [78] 3 true true (sample_device TX_IDLE));
    simpl; lia.
Defined.

Lemma handle_ident_in_any_state_witness :
  (4 <= length [0x54; 0x52; 0x54; 0x4c; 0x00])%nat /\
  (4 + 2 <= length (G_io_apdu_buffer (sample_device TX_SIGNING)))%nat /\
  exists d',
    @handle_ident sample_platform [0x54; 0x52; 0x54; 0x4c; 0x00]
      (sample_device TX_SIGNING) = Some d'
    /\ trace d'
       = [EvIoExchange 0x20 [0x54; 0x52; 0x54; 0x4c; 0x90; 0x00]; EvUiIdle]
    /\ session d' = sample_session TX_SIGNING
    /\ WORKING_SET d' = WORKING_SET (sample_device TX_SIGNING).
Proof.
  split; [simpl; lia|]. split; [simpl; lia|].
  apply (@handle_ident_in_any_state sample_platform
           [0x54; 0x52; 0x54; 0x4c; 0x00] (sample_device TX_SIGNING));
    simpl; lia.
Defined.

Lemma sendError_reply_decodes_witness :
  (4 <= length (G_io_apdu_buffer (sample_device TX_IDLE)))%nat /\
  exists d' reply,
    @sendError sample_platform 0x5001 (sample_device TX_IDLE) = Some d'
    /\ trace d' = [EvIoExchange 0x20 reply; EvUiIdle]
    /\ length reply = 4%nat
    /\ readUint16BE reply = 0x5001
    /\ drop 2 reply = [0x69; 0x85]
    /\ drop 4 (G_io_apdu_buffer d') = [5; 6; 7; 8]
    /\ session d' = sample_session TX_IDLE
    /\ WORKING_SET d' = WORKING_SET (sample_device TX_IDLE).
Proof.
  split; [simpl; lia|].
  apply (@sendError_reply_decodes sample_platform 0x5001
           (sample_device TX_IDLE)).
  simpl; lia.
Defined.

(** ** The deny path and the content of the working set *)

Lemma do_deny_in_bounds `{Platform} (d : device) :
  length (WORKING_SET d) = WORKING_SET_SIZE ->
  (4 <= length (G_io_apdu_buffer d))%nat ->
  do_deny d
  = Some {| G_io_apdu_buffer :=
              error_reply ERR_OP_NOT_PERMITTED
              ++ drop 4 (G_io_apdu_buffer d);
            WORKING_SET := replicate WORKING_SET_SIZE 0;
            session := session d;
            trace := trace d
              ++ [EvIoExchange (Z.lor CHANNEL_APDU IO_RETURN_AFTER_TX)
                    (error_reply ERR_OP_NOT_PERMITTED);
                  EvUiIdle] |}.
Proof.
  intros Hw Hb. unfold do_deny.
  rewrite <- Hw, explicit_bzero_whole. simpl.
  by rewrite sendError_in_bounds by exact Hb.
Qed.

(** What [do_deny] leaves and sends does not depend on what the working
    set held: two devices that differ only in the content of the working
    set end in the same state, with the same reply sent. *)
Theorem do_deny_independent_of_working_set `{Platform} (d1 d2 : device) :
  length (WORKING_SET d1) = WORKING_SET_SIZE ->
  length (WORKING_SET d2) = WORKING_SET_SIZE ->
  G_io_apdu_buffer d1 = G_io_apdu_buffer d2 ->
  session d1 = session d2 ->
  trace d1 = trace d2 ->
  (4 <= length (G_io_apdu_buffer d1))%nat ->
  exists d', do_deny d1 = Some d' /\ do_deny d2 = Some d'.
Proof.
  intros Hw1 Hw2 Hbuf Hses Htr Hb.
  rewrite (do_deny_in_bounds d1) by assumption.
  rewrite (do_deny_in_bounds d2) by (rewrite <- ?Hbuf; assumption).
  rewrite Hbuf, Hses, Htr. by eexists.
Qed.

Lemma do_deny_independent_of_working_set_witness :
  length (WORKING_SET (sample_device TX_SIGNING)) = 6%nat /\
  length (WORKING_SET (sample_device_holding [1; 2; 3; 4; 5; 6] TX_SIGNING))
  = 6%nat /\
  (4 <= length (G_io_apdu_buffer (sample_device TX_SIGNING)))%nat /\
  exists d',
    @do_deny sample_platform (sample_device TX_SIGNING) = Some d'
    /\ @do_deny sample_platform
         (sample_device_holding [1; 2; 3; 4; 5; 6] TX_SIGNING) = Some d'.
Proof.
  split; [reflexivity|]. split; [reflexivity|]. split; [simpl; lia|].
  apply (@do_deny_independent_of_working_set sample_platform
           (sample_device TX_SIGNING)
           (sample_device_holding [1; 2; 3; 4; 5; 6] TX_SIGNING));
    try reflexivity.
  simpl; lia.
Defined.

(** ** The accepted path of the finalize-prefix command *)

(** In [TX_OUTPUTS_RECEIVED] the handler defers: it starts the confirmation
    flow and sets [IO_ASYNCH_REPLY] in [*flags], keeping every other bit of
    [*flags]; it sends nothing and leaves the APDU buffer, the session and
    the working set as they were. No room in the APDU buffer is needed. *)
Theorem handle_tx_finalize_prefix_defers `{Platform}
    (flags : Z) (d : device) :
  tx_state d = TX_OUTPUTS_RECEIVED ->
  exists flags' d',
    handle_tx_finalize_prefix flags d = Some (flags', d')
    /\ Z.land flags' IO_ASYNCH_REPLY = IO_ASYNCH_REPLY
    /\ (forall n, Z.testbit IO_ASYNCH_REPLY n = false ->
                  Z.testbit flags' n = Z.testbit flags n)
    /\ trace d' = trace d ++ [EvUxFlowInit ux_tx_finalize_prefix_flow]
    /\ G_io_apdu_buffer d' = G_io_apdu_buffer d
    /\ session d' = session d
    /\ WORKING_SET d' = WORKING_SET d.
Proof.
  intros Hst. eexists _, _.
  split; [by apply handle_tx_finalize_prefix_accepted|].
  split.
  { apply Z.bits_inj'. intros n Hn.
    rewrite Z.land_spec, Z.lor_spec.
    by destruct (Z.testbit flags n), (Z.testbit IO_ASYNCH_REPLY n). }
  split.
  { intros n Hn. rewrite Z.lor_spec, Hn. apply orb_false_r. }
  done.
Qed.

Lemma handle_tx_finalize_prefix_defers_witness :
  tx_state (sample_device TX_OUTPUTS_RECEIVED) = TX_OUTPUTS_RECEIVED /\
  exists flags' d',
    @handle_tx_finalize_prefix sample_platform 5
      (sample_device TX_OUTPUTS_RECEIVED) = Some (flags', d')
    /\ Z.land flags' 0x10 = 0x10
    /\ (forall n, Z.testbit 0x10 n = false ->
                  Z.testbit flags' n = Z.testbit 5 n)
    /\ trace d' = [EvUxFlowInit ux_tx_finalize_prefix_flow]
    /\ G_io_apdu_buffer d' = [1; 2; 3; 4; 5; 6; 7; 8]
    /\ session d' = sample_session TX_OUTPUTS_RECEIVED
    /\ WORKING_SET d' = WORKING_SET (sample_device TX_OUTPUTS_RECEIVED).
Proof.
  split; [reflexivity|].
  apply (@handle_tx_finalize_prefix_defers sample_platform 5
           (sample_device TX_OUTPUTS_RECEIVED)).
  reflexivity.
Defined.

(** The step of the flow, [do_tx_finalize_prefix], sends exactly one reply
    and does not look at the session state itself. When
    [tx_finalize_prefix] returns [OP_OK] the reply is the bare success
    status, two bytes with no payload; otherwise it is the error reply of
    the status, from which the host reads the low 16 bits of the status
    back. In both cases the session is the one [tx_finalize_prefix] left,
    and the working set is untouched. *)
Theorem do_tx_finalize_prefix_outcome `{Platform} (d : device) :
  (4 <= length (G_io_apdu_buffer d))%nat ->
  exists d' reply,
    do_tx_finalize_prefix d = Some d'
    /\ trace d'
       = trace d
         ++ [EvIoExchange (Z.lor CHANNEL_APDU IO_RETURN_AFTER_TX) reply;
             EvUiIdle]
    /\ (fst (tx_finalize_prefix (session d)) = OP_OK ->
        reply = [0x90; 0x00])
    /\ (fst (tx_finalize_prefix (session d)) <> OP_OK ->
        length reply = 4%nat
        /\ readUint16BE reply
           = fst (tx_finalize_prefix (session d)) mod 65536
        /\ drop 2 reply = [0x69; 0x85])
    /\ session d' = snd (tx_finalize_prefix (session d))
    /\ WORKING_SET d' = WORKING_SET d.
Proof.
  intros Hb. unfold do_tx_finalize_prefix.
  destruct (tx_finalize_prefix (session d)) as [status t]. simpl.
  destruct (decide (status = OP_OK)) as [Heq | Hne].
  - rewrite decide_False by (intros Hn; by apply Hn).
    rewrite sendResponse_in_bounds by (simpl; lia).
    eexists _, _. split; [reflexivity|]. simpl.
    split; [reflexivity|]. split; [done|]. split; [done|]. done.
  - rewrite decide_True by exact Hne.
    rewrite sendError_in_bounds by (simpl; lia).
    eexists _, _. split; [reflexivity|]. simpl.
    split; [reflexivity|]. split; [done|].
    split; [|done]. intros _.
    split; [reflexivity|]. split; [apply error_reply_decodes | reflexivity].
Qed.

Lemma do_tx_finalize_prefix_outcome_witness :
  (4 <= length (G_io_apdu_buffer (sample_device TX_OUTPUTS_RECEIVED)))%nat /\
  exists d' reply,
    @do_tx_finalize_prefix finalizing_platform
      (sample_device TX_OUTPUTS_RECEIVED) = Some d'
    /\ trace d' = [EvIoExchange 0x20 reply; EvUiIdle]
    /\ (0 = 0 -> reply = [0x90; 0x00])
    /\ (0 <> 0 ->
        length reply = 4%nat
        /\ readUint16BE reply = 0 mod 65536
        /\ drop 2 reply = [0x69; 0x85])
    /\ session d'
       = {| state := TX_PREFIX_FINALIZED;
            txPublicKey := [1; 2; 3; 4];
            outputs := [ {| outputIndex := 0; outputKey := [5; 6];
                            derivation := [7] |} ];
            inputs := [];
            prefixHash := [0xAA; 0xBB] |}
    /\ WORKING_SET d' = WORKING_SET (sample_device TX_OUTPUTS_RECEIVED).
Proof.
  split; [simpl; lia|].
  apply (@do_tx_finalize_prefix_outcome finalizing_platform
           (sample_device TX_OUTPUTS_RECEIVED)).
  simpl; lia.
Defined.

(** ** [toHexString] *)

Lemma hex_digit_range (n : Z) : 0 <= n < 16 -> 48 <= hex_digit n <= 102.
Proof. intros Hn. unfold hex_digit. destruct (n <? 10) eqn:E; lia. Qed.


Lemma nibbles_range (b : Z) :
  0 <= b < 256 -> 0 <= b / 16 < 16 /\ 0 <= b mod 16 < 16.
Proof.
  intros Hb. split; [|apply Z.mod_pos_bound; lia].
  split; [apply Z.div_pos; lia | apply Z.div_lt_upper_bound; lia].
Qed.

Lemma length_hex_of_bytes (bs : list Z) :
  length (hex_of_bytes bs) = (2 * length bs)%nat.
Proof.
  unfold hex_of_bytes. induction bs as [|b bs IH]; simpl in *; [done|].
  rewrite IH. lia.
Qed.

Lemma hex_of_bytes_cons (b : Z) (bs : list Z) :
  hex_of_bytes (b :: bs)
  = hex_digit (b / 16) :: hex_digit (b mod 16) :: hex_of_bytes bs.
Proof. reflexivity. Qed.

Lemma store_Some_inv (buffer b' : list Z) (i : nat) (v : Z) :
  store buffer i v = Some b' ->
  (i < length buffer)%nat /\ length b' = length buffer.
Proof.
  unfold store. destruct (decide (i < length buffer)%nat); [|discriminate].
  intros [= <-]. by rewrite length_insert.
Qed.

Lemma clear_at_in_bounds (s : list Z) (pos n : nat) :
  (pos + n <= length s)%nat ->
  clear_at s pos n = Some (take pos s ++ replicate n 0 ++ drop (pos + n) s).
Proof. intros Hb. unfold clear_at. by rewrite decide_True by exact Hb. Qed.

Lemma clear_at_Some_inv (s s' : list Z) (pos n : nat) :
  clear_at s pos n = Some s' ->
  (pos + n <= length s)%nat /\ length s' = length s.
Proof.
  unfold clear_at. destruct (decide (pos + n <= length s)%nat); [|discriminate].
  intros [= <-]. split; [done|].
  rewrite !length_app, length_take, length_replicate, length_drop. lia.
Qed.

(** One [SPRINTF] of a byte at the end of [pre]: four cells are written. *)
Lemma sprintf_02x_at (pre rest : list Z) (a b c d x : Z) :
  0 <= x < 256 ->
  sprintf_02x (pre ++ a :: b :: c :: d :: rest) (length pre) x
  = Some (pre ++ hex_digit (x / 16) :: hex_digit (x mod 16) :: 0 :: 0 :: rest).
Proof.
  intros Hx. destruct (nibbles_range x Hx) as [Hhi Hlo].
  pose proof (hex_digit_range _ Hhi). pose proof (hex_digit_range _ Hlo).
  unfold sprintf_02x, snprintf_02x, sizeof_char_ptr.
  rewrite decide_False by lia.
  rewrite clear_at_in_bounds by (rewrite length_app; simpl; lia).
  rewrite take_app_length.
  rewrite drop_app_ge by lia.
  replace (length pre + 4 - length pre)%nat with 4%nat by lia.
  cbn [mbind option_bind replicate drop app].
  rewrite store_in_bounds by (rewrite length_app; simpl; lia).
  cbn [mbind option_bind]. rewrite decide_False by lia.
  rewrite store_in_bounds
    by (rewrite length_insert, length_app; simpl; lia).
  rewrite (Z.mod_small (hex_digit (x / 16)) 256) by lia.
  rewrite (Z.mod_small (hex_digit (x mod 16)) 256) by lia.
  rewrite (insert_app_r_alt pre _ (length pre)) by lia.
  rewrite (insert_app_r_alt pre _ (S (length pre))) by lia.
  replace (length pre - length pre)%nat with 0%nat by lia.
  replace (S (length pre) - length pre)%nat with 1%nat by lia.
  reflexivity.
Qed.

Lemma sprintf_02x_Some_inv (out out1 : list Z) (pos : nat) (b : Z) :
  sprintf_02x out pos b = Some out1 ->
  (pos + 4 <= length out)%nat /\ length out1 = length out.
Proof.
  unfold sprintf_02x, snprintf_02x, sizeof_char_ptr.
  rewrite decide_False by lia. intros Hs.
  destruct (clear_at out pos 4) as [o0|] eqn:H0; [|discriminate].
  cbn [mbind option_bind] in Hs.
  destruct (store o0 pos _) as [o1|] eqn:H1; [|discriminate].
  cbn [mbind option_bind] in Hs. rewrite decide_False in Hs by lia.
  apply clear_at_Some_inv in H0 as [? ?].
  apply store_Some_inv in H1 as [? ?], Hs as [? ?]. lia.
Qed.

Lemma sprintf_02x_succeeds (out : list Z) (pos : nat) (b : Z) :
  (pos + 4 <= length out)%nat ->
  exists out1, sprintf_02x out pos b = Some out1
               /\ length out1 = length out.
Proof.
  intros Hp. unfold sprintf_02x, snprintf_02x, sizeof_char_ptr.
  rewrite decide_False by lia.
  rewrite clear_at_in_bounds by lia. cbn [mbind option_bind].
  assert (Hlen : length (take pos out ++ replicate 4 0 ++ drop (pos + 4) out)
                 = length out).
  { rewrite !length_app, length_take, length_replicate, length_drop. lia. }
  rewrite store_in_bounds by lia. cbn [mbind option_bind].
  rewrite decide_False by lia.
  rewrite store_in_bounds by (rewrite length_insert; lia).
  eexists. split; [reflexivity|]. by rewrite !length_insert.
Qed.

Lemma toHexString_loop_step (in_ : list Z) (count i pos : nat)
    (out out1 : list Z) (b : Z) :
  in_ !! i = Some b ->
  sprintf_02x out pos b = Some out1 ->
  toHexString_loop in_ (S count) i pos out
  = toHexString_loop in_ count (S i) (pos + 2) out1.
Proof.
  intros Hb Hs. cbn [toHexString_loop]. unfold load.
  rewrite Hb. cbn [mbind option_bind]. by rewrite Hs.
Qed.

(** The loop over [count + 1] bytes from position [i], writing from the
    end of [pre]: every call overwrites the two zero bytes of the one
    before, and the last one leaves its two. *)
Lemma toHexString_loop_spec (in_ : list Z) (count : nat) :
  Forall (fun b => 0 <= b < 256) in_ ->
  forall (i : nat) (pre rest : list Z),
    (i + S count <= length in_)%nat ->
    (2 * S count + 2 <= length rest)%nat ->
    toHexString_loop in_ (S count) i (length pre) (pre ++ rest)
    = Some (pre ++ hex_of_bytes (take (S count) (drop i in_))
                ++ 0 :: 0 :: drop (2 * S count + 2) rest).
Proof.
  intros Hbytes. induction count as [|count IH]; intros i pre rest Hi Hr.
  - destruct (lookup_lt_is_Some_2 in_ i) as [b Hb]; [lia|].
    assert (Hrange : 0 <= b < 256).
    { rewrite Forall_forall in Hbytes. apply Hbytes.
      apply list_elem_of_In, list_elem_of_lookup. eauto. }
    destruct rest as [|x [|y [|z [|w rest]]]]; simpl in Hr; try lia.
    rewrite (toHexString_loop_step _ _ _ _ _ _ _ Hb
               (sprintf_02x_at pre rest x y z w b Hrange)).
    rewrite (drop_S _ _ _ Hb). simpl. by rewrite drop_0.
  - destruct (lookup_lt_is_Some_2 in_ i) as [b Hb]; [lia|].
    assert (Hrange : 0 <= b < 256).
    { rewrite Forall_forall in Hbytes. apply Hbytes.
      apply list_elem_of_In, list_elem_of_lookup. eauto. }
    destruct rest as [|x [|y [|z [|w rest]]]]; simpl in Hr; try lia.
    rewrite (toHexString_loop_step _ _ _ _ _ _ _ Hb
               (sprintf_02x_at pre rest x y z w b Hrange)).
    replace (pre ++ hex_digit (b / 16) :: hex_digit (b mod 16)
                 :: 0 :: 0 :: rest)
      with ((pre ++ [hex_digit (b / 16); hex_digit (b mod 16)])
            ++ 0 :: 0 :: rest) by (by rewrite <- app_assoc).
    replace (length pre + 2)%nat
      with (length (pre ++ [hex_digit (b / 16); hex_digit (b mod 16)]))
      by (rewrite length_app; simpl; lia).
    rewrite IH by (simpl; lia).
    rewrite (drop_S _ _ _ Hb).
    rewrite (firstn_cons (S count) b). rewrite hex_of_bytes_cons.
    rewrite <- app_assoc. f_equal. f_equal. simpl. do 4 f_equal.
    replace (count + S (count + 0) + 2)%nat
      with (S (count + count + 2)) by lia.
    by replace (count + S (S (count + 0)) + 2)%nat
      with (S (S (count + count + 2))) by lia.
Qed.

Lemma toHexString_loop_Some_inv (in_ : list Z) (count : nat) :
  forall (i pos : nat) (out out' : list Z),
    toHexString_loop in_ count i pos out = Some out' ->
    (count = 0%nat \/ i + count <= length in_)%nat
    /\ (count = 0%nat \/ pos + 2 * count + 2 <= length out)%nat
    /\ length out' = length out.
Proof.
  induction count as [|count IH]; intros i pos out out' Hl.
  - injection Hl as <-. lia.
  - cbn [toHexString_loop] in Hl. unfold load in Hl.
    destruct (in_ !! i) as [b|] eqn:Hb; [|discriminate].
    cbn [mbind option_bind] in Hl.
    destruct (sprintf_02x out pos b) as [out1|] eqn:Hs; [|discriminate].
    cbn [mbind option_bind] in Hl.
    apply lookup_lt_Some in Hb.
    apply sprintf_02x_Some_inv in Hs as [Hs1 Hs2].
    apply IH in Hl as (Hi & Hc & Hlen). lia.
Qed.

Lemma toHexString_loop_succeeds (in_ : list Z) (count : nat) :
  forall (i pos : nat) (out : list Z),
    (i + count <= length in_)%nat ->
    (count = 0%nat \/ pos + 2 * count + 2 <= length out)%nat ->
    exists out', toHexString_loop in_ count i pos out = Some out'
                 /\ length out' = length out.
Proof.
  induction count as [|count IH]; intros i pos out Hi Hc.
  - by exists out.
  - destruct (lookup_lt_is_Some_2 in_ i) as [b Hb]; [lia|].
    destruct (sprintf_02x_succeeds out pos b) as (out1 & Hs & Hlen); [lia|].
    rewrite (toHexString_loop_step _ _ _ _ _ _ _ Hb Hs).
    destruct (IH (S i) (pos + 2)%nat out1) as (out' & Hl & Hlen');
      [lia | lia |].
    exists out'. split; [exact Hl | lia].
Qed.

Lemma hex_of_bytes_nonzero (bs : list Z) :
  Forall (fun b => 0 <= b < 256) bs ->
  Forall (fun c => c <> 0) (hex_of_bytes bs).
Proof.
  induction 1 as [|b bs Hb _ IH]; [constructor|].
  rewrite hex_of_bytes_cons.
  destruct (nibbles_range b Hb) as [Hhi Hlo].
  pose proof (hex_digit_range _ Hhi). pose proof (hex_digit_range _ Hlo).
  repeat constructor; [lia | lia | exact IH].
Qed.


Lemma toHexString_closed_form (in_ : list Z) (in_len : nat) (out : list Z)
    (out_len : nat) :
  Forall (fun b => 0 <= b < 256) in_ ->
  (0 < in_len <= length in_)%nat ->
  (2 * in_len + 2 <= length out)%nat ->
  (out_len < length out)%nat ->
  toHexString in_ in_len out out_len
  = Some (<[out_len := 0]>
            (hex_of_bytes (take in_len in_)
             ++ 0 :: 0 :: drop (2 * in_len + 2) out)).
Proof.
  intros Hbytes Hin Hout Hlen. destruct in_len as [|n]; [lia|].
  unfold toHexString.
  change (toHexString_loop in_ (S n) 0 0 out)
    with (toHexString_loop in_ (S n) 0 (length (@nil Z)) ([] ++ out)).
  rewrite (toHexString_loop_spec in_ n Hbytes) by (simpl; lia).
  rewrite drop_0. cbn [mbind option_bind app].
  rewrite store_in_bounds; [done|].
  rewrite length_app, length_hex_of_bytes, length_take. cbn [length].
  rewrite length_drop. lia.
Qed.

(** Called the way its arguments suggest, with [out_len = 2 * in_len],
    [toHexString] leaves in [out] the two lowercase hexadecimal digits of
    each of the first [in_len] bytes of [in], in order, then a zero byte.
    When there is any input, the byte after that zero byte is cleared too
    (the last [SPRINTF] clears four), so [out] needs [2 * in_len + 2]
    bytes; what follows is not touched. With [in_len = 0] the only store
    is the zero byte at index 0: the empty string. *)
Theorem toHexString_exact (in_ : list Z) (in_len : nat) (out : list Z) :
  Forall (fun b => 0 <= b < 256) in_ ->
  (in_len <= length in_)%nat ->
  (2 * in_len + 2 <= length out)%nat ->
  toHexString in_ in_len out (2 * in_len)
  = Some (hex_of_bytes (take in_len in_)
          ++ 0 :: (if decide (in_len = 0%nat) then drop 1 out
                   else 0 :: drop (2 * in_len + 2) out)).
Proof.
  intros Hbytes Hin Hout. destruct in_len as [|n].
  - destruct out as [|x out]; simpl in Hout; [lia|]. reflexivity.
  - rewrite toHexString_closed_form by (assumption || lia).
    rewrite decide_False by lia.
    f_equal. rewrite insert_app_r_alt
      by (rewrite length_hex_of_bytes, length_take; lia).
    rewrite length_hex_of_bytes, length_take.
    by replace (2 * S n - 2 * (S n `min` length in_))%nat with 0%nat by lia.
Qed.

Lemma toHexString_exact_witness :
  Forall (fun b => 0 <= b < 256) [0xDE; 0xAD; 0x07] /\
  (2 <= length [0xDE; 0xAD; 0x07])%nat /\
  (2 * 2 + 2 <= length [1; 1; 1; 1; 1; 1; 1])%nat /\
  toHexString [0xDE; 0xAD; 0x07] 2 [1; 1; 1; 1; 1; 1; 1] (2 * 2)
  = Some [100; 101; 97; 100; 0; 0; 1].
Proof.
  assert (Hb : Forall (fun b => 0 <= b < 256) [0xDE; 0xAD; 0x07])
    by (repeat constructor; lia).
  split; [exact Hb|]. split; [simpl; lia|]. split; [simpl; lia|].
  apply (toHexString_exact [0xDE; 0xAD; 0x07] 2 [1; 1; 1; 1; 1; 1; 1] Hb);
    simpl; lia.
Defined.

(** Where the string [toHexString] leaves ends. Whatever [out_len] is,
    [out] holds a zero byte at index [out_len]. When there is any input,
    the string is cut at the smaller of [out_len] and [2 * in_len]: up to
    there [out] holds the hexadecimal digits, none of which is a zero byte,
    and at that position it holds a zero byte, so that a short [out_len]
    truncates the digits and a long one does not lengthen the string. When
    [in_len = 0] the zero byte at [out_len] is the only store, and the
    bytes before it are those [out] held on entry. *)
Theorem toHexString_terminated (in_ : list Z) (in_len : nat)
    (out : list Z) (out_len : nat) :
  Forall (fun b => 0 <= b < 256) in_ ->
  (in_len <= length in_)%nat ->
  (in_len = 0 \/ 2 * in_len + 2 <= length out)%nat ->
  (out_len < length out)%nat ->
  exists out',
    toHexString in_ in_len out out_len = Some out'
    /\ out' !! out_len = Some 0
    /\ ((0 < in_len)%nat ->
        take (out_len `min` (2 * in_len)) out'
        = take (out_len `min` (2 * in_len)) (hex_of_bytes (take in_len in_))
        /\ out' !! (out_len `min` (2 * in_len))%nat = Some 0
        /\ Forall (fun c => c <> 0) (hex_of_bytes (take in_len in_)))
    /\ (in_len = 0%nat -> out' = <[out_len := 0]> out).
Proof.
  intros Hbytes Hin Hout Hlen. destruct in_len as [|n].
  - exists (<[out_len := 0]> out). unfold toHexString.
    cbn [toHexString_loop mbind option_bind].
    rewrite store_in_bounds by exact Hlen.
    split; [done|]. split; [by apply list_lookup_insert_eq|].
    split; [lia | done].
  - destruct Hout as [? | Hout]; [lia|].
    eexists. split; [apply toHexString_closed_form; (assumption || lia)|].
    set (hex := hex_of_bytes (take (S n) in_)).
    assert (Hhex : length hex = (2 * S n)%nat)
      by (unfold hex; rewrite length_hex_of_bytes, length_take; lia).
    set (m := (out_len `min` (2 * S n))%nat).
    assert (Hfull : length (hex ++ 0 :: 0 :: drop (2 * S n + 2) out)
                    = length out).
    { rewrite length_app, Hhex. cbn [length]. rewrite length_drop. lia. }
    split; [apply list_lookup_insert_eq; lia|].
    split; [|lia]. intros _. split; [|split].
    + rewrite take_insert_ge by (unfold m; lia).
      apply take_app_le. unfold m; lia.
    + destruct (decide (out_len <= 2 * S n)%nat) as [Hle | Hgt].
      * replace m with out_len by (unfold m; lia).
        apply list_lookup_insert_eq. lia.
      * replace m with (2 * S n)%nat by (unfold m; lia).
        rewrite list_lookup_insert_ne by lia.
        rewrite lookup_app_r by lia. rewrite Hhex.
        by replace (2 * S n - 2 * S n)%nat with 0%nat by lia.
    + apply hex_of_bytes_nonzero. by apply Forall_take.
Qed.

Lemma toHexString_terminated_witness :
  Forall (fun b => 0 <= b < 256) [0xDE; 0xAD] /\
  (2 <= length [0xDE; 0xAD])%nat /\
  (2 = 0 \/ 2 * 2 + 2 <= length [1; 1; 1; 1; 1; 1; 1])%nat /\
  (3 < length [1; 1; 1; 1; 1; 1; 1])%nat /\
  exists out',
    toHexString [0xDE; 0xAD] 2 [1; 1; 1; 1; 1; 1; 1] 3 = Some out'
    /\ out' !! 3%nat = Some 0
    /\ ((0 < 2)%nat ->
        take (3 `min` (2 * 2)) out'
        = take (3 `min` (2 * 2)) (hex_of_bytes (take 2 [0xDE; 0xAD]))
        /\ out' !! (3 `min` (2 * 2))%nat = Some 0
        /\ Forall (fun c => c <> 0) (hex_of_bytes (take 2 [0xDE; 0xAD])))
    /\ (2%nat = 0%nat -> out' = <[3%nat := 0]> [1; 1; 1; 1; 1; 1; 1]).
Proof.
  assert (Hb : Forall (fun b => 0 <= b < 256) [0xDE; 0xAD])
    by (repeat constructor; lia).
  split; [exact Hb|]. split; [simpl; lia|]. split; [right; simpl; lia|].
  split; [simpl; lia|].
  apply (toHexString_terminated [0xDE; 0xAD] 2 [1; 1; 1; 1; 1; 1; 1] 3 Hb);
    [simpl; lia | right; simpl; lia | simpl; lia].
Defined.



(** The buffers [toHexString] needs: it stays within bounds exactly when
    [in] has [in_len] bytes, [out] has room for the digits and the two
    bytes that the last [SPRINTF] clears after them, [2 * in_len + 2]
    bytes when there is any input, and [out] has a cell at index
    [out_len], that is, more than [out_len] bytes. *)
Theorem toHexString_bounds (in_ : list Z) (in_len : nat) (out : list Z)
    (out_len : nat) :
  is_Some (toHexString in_ in_len out out_len)
  <-> (in_len <= length in_)%nat
      /\ (in_len = 0%nat \/ 2 * in_len + 2 <= length out)%nat
      /\ (out_len < length out)%nat.
Proof.
  unfold toHexString. split.
  - intros [out' Hs].
    destruct (toHexString_loop in_ in_len 0 0 out) as [out1|] eqn:Hl;
      [|discriminate].
    cbn [mbind option_bind] in Hs.
    apply toHexString_loop_Some_inv in Hl as (Hi & Hc & Hlen).
    apply store_Some_inv in Hs as [Hs _]. lia.
  - intros (Hi & Hc & Ho).
    destruct (toHexString_loop_succeeds in_ in_len 0 0 out)
      as (out1 & Hl & Hlen); [lia | lia |].
    rewrite Hl. cbn [mbind option_bind].
    rewrite store_in_bounds by lia. by eexists.
Qed.

(** ** [ui_prepro] *)

(** Elements with a [userid] above zero are the steps of a screen: at most
    one of them is displayed at a time. If an element with a positive
    [userid] is displayed, an element with another positive [userid] is
    not, whatever their labels. *)
Theorem ui_prepro_one_step_at_a_time
    (roundtrip : bagl_element_t -> Z -> Z) (e1 e2 : bagl_element_t)
    (u : ux_t) :
  0 < userid e1 -> 0 < userid e2 -> userid e1 <> userid e2 ->
  fst (ui_prepro roundtrip e1 u) = 1 ->
  fst (ui_prepro roundtrip e2 u) = 0.
Proof.
  intros H1 H2 Hne. unfold ui_prepro.
  destruct (Z.gtb_spec (userid e1) 0) as [_ | ?]; [|lia].
  destruct (Z.gtb_spec (userid e2) 0) as [_ | ?]; [|lia].
  destruct (Z.eqb_spec (ux_step u) (userid e1 - 1)) as [Hs1 | Hs1];
    [|simpl; discriminate].
  destruct (Z.eqb_spec (ux_step u) (userid e2 - 1)) as [Hs2 | Hs2];
    [lia|]. reflexivity.
Qed.

Lemma ui_prepro_one_step_at_a_time_witness :
  0 < userid {| userid := 2; text := [65; 66] |} /\
  0 < userid {| userid := 1; text := [67] |} /\
  userid {| userid := 2; text := [65; 66] |}
  <> userid {| userid := 1; text := [67] |} /\
  fst (ui_prepro (fun e w => Z.of_nat (length (text e)) * w * 50)
         {| userid := 2; text := [65; 66] |}
         {| ux_step := 1; ux_callback_interval := 0 |}) = 1 /\
  fst (ui_prepro (fun e w => Z.of_nat (length (text e)) * w * 50)
         {| userid := 1; text := [67] |}
         {| ux_step := 1; ux_callback_interval := 0 |}) = 0.
Proof.
  split; [simpl; lia|]. split; [simpl; lia|]. split; [simpl; lia|].
  split; [reflexivity|].
  apply (ui_prepro_one_step_at_a_time
           (fun e w => Z.of_nat (length (text e)) * w * 50)
           {| userid := 2; text := [65; 66] |}
           {| userid := 1; text := [67] |}
           {| ux_step := 1; ux_callback_interval := 0 |});
    [simpl; lia | simpl; lia | simpl; lia | reflexivity].
Defined.

Lemma MAX_bounds (a b : Z) : a <= MAX a b /\ MAX a b <= Z.max a b.
Proof. unfold MAX. destruct (Z.gtb_spec a b); lia. Qed.

(** [ui_prepro] answers 0 or 1 and never moves [ux_step]. An element with
    [userid] 0 is always displayed and leaves the callback interval alone,
    and so does an element that is not displayed. A displayed step sets the
    interval: to 2000 ms for [userid] 1, and for the other steps to at
    least 3000 ms, whatever the SDK computes for the label, the value
    staying an [unsigned int]. *)
Theorem ui_prepro_interval (roundtrip : bagl_element_t -> Z -> Z)
    (element : bagl_element_t) (u : ux_t) :
  let display := fst (ui_prepro roundtrip element u) in
  let u' := snd (ui_prepro roundtrip element u) in
  (display = 0 \/ display = 1)
  /\ ux_step u' = ux_step u
  /\ (userid element <= 0 -> display = 1 /\ u' = u)
  /\ (display = 0 -> u' = u)
  /\ (userid element = 1 -> display = 1 -> ux_callback_interval u' = 2000)
  /\ (1 < userid element -> display = 1 ->
      3000 <= ux_callback_interval u' < 2 ^ 32).
Proof.
  unfold ui_prepro.
  destruct (Z.gtb_spec (userid element) 0) as [Hpos | Hzero]; simpl.
  - destruct (Z.eqb_spec (ux_step u) (userid element - 1)) as [Hs | Hs];
      simpl.
    + destruct (Z.eqb_spec (userid element) 1) as [Hone | Hmore]; simpl.
      * repeat split; try lia; try done.
      * pose proof (Z.mod_pos_bound (1000 + roundtrip element 7) (2 ^ 32)
                      ltac:(lia)) as Hm.
        pose proof (MAX_bounds 3000
                      ((1000 + roundtrip element 7) mod 2 ^ 32)) as [Hlo Hhi].
        repeat split; try lia; try done.
    + repeat split; try lia; try done.
  - repeat split; try lia; try done.
Qed.

(** ** The room [sendResponse] needs *)

(** [sendResponse] has no check of [tx] against the size of the APDU
    buffer: its two stores are within bounds exactly when the buffer has
    two cells left from index [tx] on. When they are, the buffer keeps its
    length and the session and the working set are not touched. *)
Theorem sendResponse_bounds `{Platform} (tx : nat) (approve : bool)
    (d : device) :
  (is_Some (sendResponse tx approve d)
   <-> (tx + 2 <= length (G_io_apdu_buffer d))%nat)
  /\ forall d', sendResponse tx approve d = Some d' ->
       length (G_io_apdu_buffer d') = length (G_io_apdu_buffer d)
       /\ session d' = session d
       /\ WORKING_SET d' = WORKING_SET d.
Proof.
  assert (Hinv : forall d', sendResponse tx approve d = Some d' ->
            (tx + 2 <= length (G_io_apdu_buffer d))%nat).
  { intros d'. unfold sendResponse, apdu_store. intros Hs.
    destruct (store (G_io_apdu_buffer d) tx _) as [b1|] eqn:H1;
      [|discriminate].
    cbn [mbind option_bind] in Hs.
    destruct (store (G_io_apdu_buffer (set_apdu_buffer b1 d)) (S tx) _)
      as [b2|] eqn:H2; [|discriminate].
    apply store_Some_inv in H1 as [_ Hl1]. simpl in H2.
    apply store_Some_inv in H2 as [Hi2 _]. lia. }
  split; [split|].
  - intros [d' Hs]. by apply (Hinv d').
  - intros Hb. rewrite sendResponse_in_bounds by exact Hb. by eexists.
  - intros d' Hs. pose proof (Hinv d' Hs) as Hb.
    rewrite sendResponse_in_bounds in Hs by exact Hb.
    injection Hs as <-. simpl. split; [|done].
    rewrite !length_app, length_take, length_drop.
    destruct approve; simpl; lia.
Qed.
